(** * analysis_toolkit: portfolio arithmetic, frontier optimisation and
      historic risk measures

    A shallow embedding of [analysis_toolkit.py].  NumPy arrays of float64
    become lists over a scalar type [F] that carries the arithmetic the
    module uses; the two instances are IEEE binary64 ([float], the numbers
    the program runs on) and the real numbers (rounding and special values
    abstracted away).  Python exceptions are the [Raise] side of [result];
    the call to [scipy.optimize.minimize] is the one effect of the programs
    that use it. *)

From Stdlib Require Import String List Bool Arith ZArith Lia Permutation.
From Stdlib Require Import Floats Reals Lra Sorted DecimalString.
Import ListNotations.

(** ** Python exceptions and fallible results *)

Inductive exn : Type :=
| ValueError (msg : string)
| TypeError (msg : string)
| IndexError (msg : string)
| ZeroDivisionError (msg : string).

Inductive result (A : Type) : Type :=
| Ok (a : A)
| Raise (e : exn).

Arguments Ok {A} a.
Arguments Raise {A} e.

Definition bind {A B : Type} (m : result A) (f : A -> result B) : result B :=
  match m with
  | Ok a => f a
  | Raise e => Raise e
  end.

Declare Scope py_scope.
Delimit Scope py_scope with py.
Notation "x <- m ;; k" := (bind m (fun x => k))
  (at level 61, m at next level, right associativity) : py_scope.
Open Scope py_scope.

Definition fmap {A B : Type} (f : A -> B) (m : result A) : result B :=
  x <- m ;; Ok (f x).

(** A list comprehension whose body may raise: the first exception wins. *)
Fixpoint mapM {A B : Type} (f : A -> result B) (l : list A) : result (list B) :=
  match l with
  | [] => Ok []
  | a :: l' => b <- f a ;; bs <- mapM f l' ;; Ok (b :: bs)
  end.

(** ** Scalars *)

Class Arith (F : Type) : Type := {
  fzero : F;
  fone : F;
  fadd : F -> F -> F;
  fsub : F -> F -> F;
  fmul : F -> F -> F;
  fdiv : F -> F -> F;
  fneg : F -> F;
  fsqrt : F -> F;
  fabs : F -> F;
  feqb : F -> F -> bool;
  fltb : F -> F -> bool;
  fleb : F -> F -> bool;
  of_nat : nat -> F
}.

Declare Scope arith_scope.
Delimit Scope arith_scope with A.
Notation "x + y" := (fadd x y) : arith_scope.
Notation "x - y" := (fsub x y) : arith_scope.
Notation "x * y" := (fmul x y) : arith_scope.
Notation "x / y" := (fdiv x y) : arith_scope.
Notation "- x" := (fneg x) : arith_scope.
Notation "x <=? y" := (fleb x y) : arith_scope.
Notation "x <? y" := (fltb x y) : arith_scope.
Notation "x =? y" := (feqb x y) : arith_scope.

(** IEEE 754 binary64, the element type of the arrays the module handles.
    Operations never raise: an invalid operation yields NaN, a division by
    zero an infinity (NumPy reports both as a RuntimeWarning only). *)
#[export] Instance float64 : Arith float := {
  fzero := 0%float;
  fone := 1%float;
  fadd := PrimFloat.add;
  fsub := PrimFloat.sub;
  fmul := PrimFloat.mul;
  fdiv := PrimFloat.div;
  fneg := PrimFloat.opp;
  fsqrt := PrimFloat.sqrt;
  fabs := PrimFloat.abs;
  feqb := PrimFloat.eqb;
  fltb := PrimFloat.ltb;
  fleb := PrimFloat.leb;
  of_nat := fun n => PrimFloat.of_uint63 (Uint63.of_Z (Z.of_nat n))
}.

(** Exact arithmetic: what the formulas denote when rounding, overflow and
    the special values are left out. *)
#[export] Instance exact : Arith R := {
  fzero := 0%R;
  fone := 1%R;
  fadd := Rplus;
  fsub := Rminus;
  fmul := Rmult;
  fdiv := Rdiv;
  fneg := Ropp;
  fsqrt := R_sqrt.sqrt;
  fabs := Rabs;
  feqb := fun x y => if Req_dec_T x y then true else false;
  fltb := fun x y => if Rlt_dec x y then true else false;
  fleb := fun x y => if Rle_dec x y then true else false;
  of_nat := INR
}.

(** ** NumPy arrays *)

Section Numpy.
Context {F : Type} {AF : Arith F}.

(** A two-dimensional array: its shape and its entries. *)
Record matrix : Type := {
  nrows : nat;
  ncols : nat;
  entry : nat -> nat -> F
}.

(** [np.array(rows)] for a rectangular list of rows. *)
Definition of_rows (rows : list (list F)) : matrix := {|
  nrows := length rows;
  ncols := length (hd [] rows);
  entry := fun i j => nth j (nth i rows []) fzero
|}.

(** [np.sum(v)] *)
Definition np_sum (v : list F) : F := fold_left fadd v fzero.

(** The sum of [f i] for [i] from [0] up to [n - 1]. *)
Definition sum_upto (n : nat) (f : nat -> F) : F := np_sum (map f (seq 0 n)).

(** The ValueError of [@] on shapes that do not fit (NumPy appends the
    signature and the two sizes to this text). *)
Definition matmul_mismatch : exn :=
  ValueError "matmul: Input operand 1 has a mismatch in its core dimension 0".

(** [u @ v] for two one-dimensional arrays. *)
Definition matmul_vv (u v : list F) : result F :=
  if (length u =? length v)%nat
  then Ok (sum_upto (length u) (fun i => nth i u fzero * nth i v fzero)%A)
  else Raise matmul_mismatch.

(** [u @ m] for a one-dimensional [u] and a two-dimensional [m]. *)
Definition matmul_vm (u : list F) (m : matrix) : result (list F) :=
  if (length u =? nrows m)%nat
  then Ok (map (fun j => sum_upto (nrows m) (fun i => nth i u fzero * entry m i j)%A)
               (seq 0 (ncols m)))
  else Raise matmul_mismatch.

(** ** Portfolio arithmetic *)

(** [weights.T @ returns] *)
Definition portfolio_return (weights returns : list F) : result F :=
  matmul_vv weights returns.

(** [weights.T @ covmat @ weights], the argument of the square root. *)
Definition quadratic_form (weights : list F) (covmat : matrix) : result F :=
  v <- matmul_vm weights covmat ;; matmul_vv v weights.

(** [np.sqrt(weights.T @ covmat @ weights)] *)
Definition portfolio_vol (weights : list F) (covmat : matrix) : result F :=
  q <- quadratic_form weights covmat ;; Ok (fsqrt q).

(** Reordering the assets: [w[pi]] and [cov[np.ix_(pi, pi)]]. *)
Definition permute_vec (pi : list nat) (w : list F) : list F :=
  map (fun i => nth i w fzero) pi.

Definition permute_mat (pi : list nat) (m : matrix) : matrix := {|
  nrows := length pi;
  ncols := length pi;
  entry := fun i j => entry m (nth i pi 0%nat) (nth j pi 0%nat)
|}.

End Numpy.

Arguments matrix F : clear implicits.

(** ** NumPy helpers used by the frontier functions *)

Section Helpers.
Context {F : Type} {AF : Arith F}.

(** NumPy's reductions return NaN as soon as one entry is NaN. *)
Definition nan_aware (pick : F -> F -> bool) (acc b : F) : F :=
  if negb (acc =? acc)%A then acc
  else if negb (b =? b)%A then b
  else if pick b acc then b else acc.

Definition empty_reduction (name : string) : exn :=
  ValueError ("zero-size array to reduction operation " ++ name
              ++ " which has no identity").

(** [v.min()] *)
Definition np_min (v : list F) : result F :=
  match v with
  | [] => Raise (empty_reduction "minimum")
  | a :: l => Ok (fold_left (nan_aware fltb) l a)
  end.

(** [v.max()] *)
Definition np_max (v : list F) : result F :=
  match v with
  | [] => Raise (empty_reduction "maximum")
  | a :: l => Ok (fold_left (nan_aware (fun b acc => acc <? b)%A) l a)
  end.

(** The text of the ValueError of [np.linspace] for a negative [num]. *)
Definition negative_samples (num : Z) : string :=
  "Number of samples, " ++ NilZero.string_of_int (Z.to_int num)
  ++ ", must be non-negative.".

(** [np.linspace(start, stop, num)], end point included: the samples are
    [i * step + start], and the last one is set to [stop]. *)
Definition np_linspace (start stop : F) (num : Z) : result (list F) :=
  if (num <? 0)%Z
  then Raise (ValueError (negative_samples num))
  else
    let n := Z.to_nat num in
    let div := (n - 1)%nat in
    let delta := (stop - start)%A in
    let y := map of_nat (seq 0 n) in
    let y :=
      if (0 <? div)%nat then
        let step := (delta / of_nat div)%A in
        if (step =? fzero)%A
        then map (fun t => (t / of_nat div) * delta)%A y
        else map (fun t => t * step)%A y
      else map (fun t => t * delta)%A y in
    let y := map (fun t => t + start)%A y in
    Ok (if (1 <? n)%nat then removelast y ++ [stop] else y).

(** Python's [1/n] for an [int] [n]. *)
Definition py_one_over (n : nat) : result F :=
  if (n =? 0)%nat then Raise (ZeroDivisionError "division by zero")
  else Ok (fone / of_nat n)%A.

End Helpers.

(** ** The solver interface: [scipy.optimize.minimize] *)

Section Solver.
Context {F : Type} {AF : Arith F}.

(** The ['type'] of a constraint dictionary. *)
Inductive constraint_kind : Type := eq_kind | ineq_kind.

(** A constraint dictionary; ['args'] are already applied to ['fun']. *)
Record constraint : Type := {
  ctype : constraint_kind;
  cfun : list F -> result F
}.

(** The arguments of one call to [minimize]; [args] are already applied
    to the objective. *)
Record problem : Type := {
  objective : list F -> result F;
  x0 : list F;
  method : string;
  bounds : list (F * F);
  constraints : list constraint;
  disp : bool
}.

(** What [minimize] returns, as far as the module reads it ([x]) or
    could read it ([success]). *)
Record OptimizeResult : Type := {
  x : list F;
  success : bool
}.

(** A program that may raise and may call the solver. *)
Inductive prog (A : Type) : Type :=
| Ret (a : A)
| Throw (e : exn)
| Minimize (p : problem) (k : OptimizeResult -> prog A).

Arguments Ret {A} a.
Arguments Throw {A} e.
Arguments Minimize {A} p k.

Fixpoint pbind {A B : Type} (m : prog A) (f : A -> prog B) : prog B :=
  match m with
  | Ret a => f a
  | Throw e => Throw e
  | Minimize p k => Minimize p (fun r => pbind (k r) f)
  end.

Definition lift {A : Type} (m : result A) : prog A :=
  match m with
  | Ok a => Ret a
  | Raise e => Throw e
  end.

Fixpoint pmapM {A B : Type} (f : A -> prog B) (l : list A) : prog (list B) :=
  match l with
  | [] => Ret []
  | a :: l' => pbind (f a) (fun b => pbind (pmapM f l') (fun bs => Ret (b :: bs)))
  end.

(** What a program does first: it raises, ... *)
Definition fails_first {A : Type} (m : prog A) : bool :=
  match m with
  | Throw _ => true
  | _ => false
  end.

(** ... or it calls the solver, on this problem. *)
Definition solver_problem {A : Type} (m : prog A) : option problem :=
  match m with
  | Minimize p _ => Some p
  | _ => None
  end.

Definition invokes_solver {A : Type} (m : prog A) : bool :=
  match m with
  | Minimize _ _ => true
  | _ => false
  end.

(** Running a program against a solver; an exception of the solver (one
    raised by the objective or a constraint it evaluates) propagates. *)
Fixpoint run {A : Type} (solver : problem -> result OptimizeResult)
         (m : prog A) : result A :=
  match m with
  | Ret a => Ok a
  | Throw e => Raise e
  | Minimize p k =>
      match solver p with
      | Ok r => run solver (k r)
      | Raise e => Raise e
      end
  end.

(** Every solver call of the run reported [success]. *)
Fixpoint converged {A : Type} (solver : problem -> result OptimizeResult)
         (m : prog A) : bool :=
  match m with
  | Ret _ => true
  | Throw _ => true
  | Minimize p k =>
      match solver p with
      | Ok r => success r && converged solver (k r)
      | Raise _ => true
      end
  end.

(** *** What a successful SLSQP run promises *)

Definition within_bounds (bs : list (F * F)) (v : list F) : bool :=
  (length v =? length bs)%nat
  && forallb (fun bv => (fst (fst bv) <=? snd bv)%A && (snd bv <=? snd (fst bv))%A)
             (combine bs v).

Definition constraint_met (tol : F) (v : list F) (c : constraint) : bool :=
  match cfun c v with
  | Ok y =>
      match ctype c with
      | eq_kind => (fabs y <=? tol)%A
      | ineq_kind => (- tol <=? y)%A
      end
  | Raise _ => false
  end.

Definition feasibleb (tol : F) (p : problem) (v : list F) : bool :=
  (length v =? length (x0 p))%nat
  && within_bounds (bounds p) v
  && forallb (constraint_met tol v) (constraints p).

(** The contract: a result flagged [success] has the shape of the initial
    guess, lies within the bounds and meets every constraint up to [tol]. *)
Definition slsqp_contract (tol : F) (solver : problem -> result OptimizeResult) : Prop :=
  forall p r, solver p = Ok r -> success r = true -> feasibleb tol p (x r) = true.

(** [v] solves [p] exactly: it is feasible with no slack, and no feasible
    point has a smaller objective. *)
Definition minimises (p : problem) (v : list F) : Prop :=
  feasibleb fzero p v = true /\
  exists y, objective p v = Ok y /\
    forall v' y', feasibleb fzero p v' = true -> objective p v' = Ok y' ->
                  (y <=? y')%A = true.

(** A solver that does no step: it hands back the initial guess and says
    [success] exactly when that guess is feasible up to [tol]. *)
Definition idle_solver (tol : F) (p : problem) : result OptimizeResult :=
  Ok {| x := x0 p; success := feasibleb tol p (x0 p) |}.

(** A solver that gives up: it hands back the upper bounds and reports
    that it did not succeed. *)
Definition stalled_solver (p : problem) : result OptimizeResult :=
  Ok {| x := map snd (bounds p); success := false |}.

(** A solver for two assets that knows two answers: the second asset alone
    where the objective is positive on the first asset alone, and the
    portfolio (4/5, 1/5) elsewhere. *)
Definition pair_oracle (p : problem) : result OptimizeResult :=
  y <- objective p [fone; fzero] ;;
  Ok {| x := if (fzero <? y)%A then [fzero; fone]
             else [of_nat 4 / of_nat 5; fone / of_nat 5]%A;
        success := true |}.

(** The invariant of a weight vector over [n] assets, up to [tol]. *)
Definition weights_ok (tol : F) (n : nat) (w : list F) : Prop :=
  length w = n /\
  Forall (fun wi => (fzero <=? wi)%A = true /\ (wi <=? fone)%A = true) w /\
  (fabs (np_sum w - fone) <=? tol)%A = true.

(** Inputs whose shapes do not fit: lengths that disagree, or a
    covariance matrix that is not square. *)
Definition malformed (er : list F) (cov : matrix F) : bool :=
  negb (length er =? nrows cov)%nat || negb (nrows cov =? ncols cov)%nat.

(** ** Frontier optimisation *)

Definition minimize_vol (target_return : F) (er : list F) (cov : matrix F)
  : prog (list F) :=
  let n := length er in
  pbind (lift (py_one_over n)) (fun guess =>
  let init_guess := repeat guess n in
  let bounds := repeat (fzero, fone) n in
  let weight_sum := {|
    ctype := eq_kind;
    cfun := fun weights => Ok (np_sum weights - fone)%A
  |} in
  let target_return_equal := {|
    ctype := eq_kind;
    cfun := fun weights => r <- portfolio_return weights er ;; Ok (target_return - r)%A
  |} in
  Minimize {|
    objective := fun weights => portfolio_vol weights cov;
    x0 := init_guess;
    method := "SLSQP";
    bounds := bounds;
    constraints := [weight_sum; target_return_equal];
    disp := false
  |} (fun weights => Ret (x weights))).

(** The objective of [msr], a function local to it in the source. *)
Definition neg_sharpe_ratio (weights : list F) (riskfree_rate : F)
           (er : list F) (cov : matrix F) : result F :=
  r <- portfolio_return weights er ;;
  vol <- portfolio_vol weights cov ;;
  Ok (- (r - riskfree_rate) / vol)%A.

Definition msr (riskfree_rate : F) (er : list F) (cov : matrix F)
  : prog (list F) :=
  let n := length er in
  pbind (lift (py_one_over n)) (fun guess =>
  let init_guess := repeat guess n in
  let bounds := repeat (fzero, fone) n in
  let weight_sum := {|
    ctype := eq_kind;
    cfun := fun weights => Ok (np_sum weights - fone)%A
  |} in
  Minimize {|
    objective := fun weights => neg_sharpe_ratio weights riskfree_rate er cov;
    x0 := init_guess;
    method := "SLSQP";
    bounds := bounds;
    constraints := [weight_sum];
    disp := false
  |} (fun weights => Ret (x weights))).

Definition gmv (cov : matrix F) : prog (list F) :=
  let n := nrows cov in
  msr fzero (repeat fone n) cov.

Definition optimal_weights (n_points : Z) (er : list F) (cov : matrix F)
  : prog (list (list F)) :=
  pbind (lift (lo <- np_min er ;; hi <- np_max er ;; np_linspace lo hi n_points))
    (fun target_rs =>
       pmapM (fun target_return => minimize_vol target_return er cov) target_rs).

(** The line plot [ef.plot.line(x='Volatility', y='Returns', style=...)];
    pandas refuses to plot a frame without a row (its columns are then not
    numeric). *)
Record line_plot : Type := {
  plot_x : list F;
  plot_y : list F;
  plot_style : string
}.

Definition plot_ef2 (n_points : Z) (er : list F) (cov : matrix F)
  : result line_plot :=
  if negb (length er =? 2)%nat
  then Raise (ValueError "plot_ef2 can only plot 2 asset frontiers.")
  else
    ws <- np_linspace fzero fone n_points ;;
    let weights := map (fun w => [w; (fone - w)%A]) ws in
    rets <- mapM (fun w => portfolio_return w er) weights ;;
    vols <- mapM (fun w => portfolio_vol w cov) weights ;;
    if (length rets =? 0)%nat
    then Raise (TypeError "no numeric data to plot")
    else Ok {| plot_x := vols; plot_y := rets; plot_style := ".-" |}.

End Solver.

Arguments Ret {F A} a.
Arguments Throw {F A} e.
Arguments Minimize {F A} p k.
Arguments constraint F : clear implicits.
Arguments problem F : clear implicits.
Arguments OptimizeResult F : clear implicits.
Arguments prog F A : clear implicits.
Arguments line_plot F : clear implicits.

(** ** Historic Value-at-Risk on pandas objects *)

Section Pandas.
Context {F : Type} {AF : Arith F}.

(** The values [r] may be bound to at run time. *)
Inductive pyobj : Type :=
| PySeries (data : list F)
| PyDataFrame (columns : list (string * list F))
| PyNdarray (data : list F)
| PyList (items : list F)
| PyFloat (v : F)
| PyNone.

Definition is_series_or_frame (r : pyobj) : bool :=
  match r with
  | PySeries _ | PyDataFrame _ => true
  | _ => false
  end.

(** What the risk measures return: a number for a Series, a Series
    indexed by the column labels for a DataFrame. *)
Inductive pyval : Type :=
| Scalar (v : F)
| Labelled (s : list (string * F))
| Frame (columns : list (string * list F)).

(** [v] goes before the first entry that is at least [v] or is NaN, so a
    NaN goes behind every number. *)
Fixpoint insert_sorted (v : F) (l : list F) : list F :=
  match l with
  | [] => [v]
  | y :: l' =>
      if (v <=? y)%A || negb (y =? y)%A then v :: l else y :: insert_sorted v l'
  end.

(** [np.sort]: ascending, the NaN entries last. *)
Definition np_sort (l : list F) : list F := fold_right insert_sorted [] l.

(** The largest index [k' <= k] with [k' <= vi] (and [0] if there is none). *)
Fixpoint floor_index (vi : F) (k : nat) : nat :=
  match k with
  | O => O
  | S k' => if (of_nat k <=? vi)%A then k else floor_index vi k'
  end.

(** NumPy's linear interpolation between two neighbours. *)
Definition lerp (a b t : F) : F :=
  let diff_b_a := (b - a)%A in
  if (fone / of_nat 2 <=? t)%A then (b - diff_b_a * (fone - t))%A
  else (a + diff_b_a * t)%A.

(** [np.percentile(a, q)] with the default (linear) method: [q] is checked
    against [0, 100] first, then the value is interpolated between the
    closest ranks of the sorted data.  Empty data is rejected (with which
    exception depends on the NumPy release; no property below relies on
    it). *)
Definition np_percentile (a : list F) (q : F) : result F :=
  let q := (q / of_nat 100)%A in
  if negb ((fzero <=? q)%A && (q <=? fone)%A)
  then Raise (ValueError "Percentiles must be in the range [0, 100]")
  else
    match np_sort a with
    | [] => Raise (IndexError "index -1 is out of bounds for axis 0 with size 0")
    | arr =>
        let n := length arr in
        let vi := (of_nat (n - 1) * q)%A in
        let previous := floor_index vi (n - 1) in
        let next := Nat.min (previous + 1) (n - 1) in
        let gamma := (vi - of_nat previous)%A in
        let last := nth (n - 1) arr fzero in
        if negb (last =? last)%A then Ok last
        else Ok (lerp (nth previous arr fzero) (nth next arr fzero) gamma)
    end.

(** [Series.mean()]: NaN entries are skipped; for an empty selection the
    quotient [0/0] is the NaN pandas returns. *)
Definition series_mean (l : list F) : F :=
  let kept := filter (fun v => (v =? v)%A) l in
  (np_sum kept / of_nat (length kept))%A.

(** The number of rows of a DataFrame (its columns are equally long). *)
Definition frame_rows (columns : list (string * list F)) : nat :=
  match columns with
  | [] => 0
  | c :: _ => length (snd c)
  end.

(** [df.aggregate(f, level=level)].  On a frame with at least one row and
    one column [f] is applied to every column, taken as a Series, and the
    results are labelled with the column names.  On a frame with no row or
    no column pandas tries [f] on an empty Series: if that raises, the
    exception is dropped and a copy of the frame is returned; otherwise the
    value is given to every column label. *)
Definition aggregate (f : list F -> result F) (columns : list (string * list F))
  : result pyval :=
  if (length columns =? 0)%nat || (frame_rows columns =? 0)%nat then
    match f [] with
    | Raise _ => Ok (Frame columns)
    | Ok r => Ok (Labelled (map (fun c => (fst c, r)) columns))
    end
  else
    fmap Labelled (mapM (fun c => v <- f (snd c) ;; Ok (fst c, v)) columns).

(** The [elif isinstance(r, pd.Series)] branch of [var_historic]. *)
Definition var_historic_series (r : list F) (level : F) : result F :=
  p <- np_percentile r level ;; Ok (- p)%A.

Definition var_historic (r : pyobj) (level : F) : result pyval :=
  match r with
  | PyDataFrame columns =>
      aggregate (fun c => var_historic_series c level) columns
  | PySeries data => fmap Scalar (var_historic_series data level)
  | _ => Raise (TypeError "Expected r to be a Series or DataFrame.")
  end.

(** The [elif isinstance(r, pd.Series)] branch of [cvar_historic]. *)
Definition cvar_historic_series (r : list F) (level : F) : result F :=
  v <- var_historic_series r level ;;
  let beyond_var := filter (fun ri => ri <=? - v)%A r in
  Ok (- series_mean beyond_var)%A.

Definition cvar_historic (r : pyobj) (level : F) : result pyval :=
  match r with
  | PyDataFrame columns =>
      aggregate (fun c => cvar_historic_series c level) columns
  | PySeries data => fmap Scalar (cvar_historic_series data level)
  | _ => Raise (TypeError "Expected r to be a Series or DataFrame.")
  end.

Definition is_type_error {A : Type} (m : result A) : bool :=
  match m with
  | Raise (TypeError _) => true
  | _ => false
  end.

End Pandas.

Arguments pyobj F : clear implicits.
Arguments pyval F : clear implicits.

(** ** Descriptive statistics on a Series *)

Section Series.
Context {F : Type} {AF : Arith F}.

(** [Series.cumprod()]: a NaN entry stays NaN and is skipped by the running
    product. *)
Fixpoint cumprod_from (acc : F) (l : list F) : list F :=
  match l with
  | [] => []
  | v :: l' =>
      if (v =? v)%A
      then (acc * v)%A :: cumprod_from (acc * v)%A l'
      else v :: cumprod_from acc l'
  end.

Definition cumprod (l : list F) : list F := cumprod_from fone l.

(** [Series.cummax()]: a NaN entry stays NaN and is skipped by the running
    maximum; [acc] is the maximum so far, if any. *)
Fixpoint cummax_from (acc : option F) (l : list F) : list F :=
  match l with
  | [] => []
  | v :: l' =>
      if (v =? v)%A then
        let m := match acc with
                 | None => v
                 | Some a => if (a <? v)%A then v else a
                 end in
        m :: cummax_from (Some m) l'
      else v :: cummax_from acc l'
  end.

Definition cummax (l : list F) : list F := cummax_from None l.

(** The DataFrame [drawdown] returns, one list per column. *)
Record drawdown_frame : Type := {
  Wealth : list F;
  Cumulative_Peaks : list F;
  Percentage_Drawdown : list F
}.

Definition drawdown (return_series : list F) : drawdown_frame :=
  let wealth_index :=
    map (fun v => of_nat 1000 * v)%A
        (cumprod (map (fun r => fone + r)%A return_series)) in
  let cumulative_peaks := cummax wealth_index in
  let drawdown :=
    map (fun wp => (fst wp - snd wp) / snd wp)%A
        (combine wealth_index cumulative_peaks) in
  {| Wealth := wealth_index;
     Cumulative_Peaks := cumulative_peaks;
     Percentage_Drawdown := drawdown |}.

(** [Series.std(ddof=0)]: NaN entries are skipped; the square root of the
    mean squared deviation from the mean. *)
Definition series_std0 (l : list F) : F :=
  let kept := filter (fun v => (v =? v)%A) l in
  let count := of_nat (length kept) in
  let avg := (np_sum kept / count)%A in
  fsqrt (np_sum (map (fun v => (avg - v) * (avg - v))%A kept) / count)%A.

(** [semi_deviation] of a Series. *)
Definition semi_deviation (r : list F) : F :=
  let negative := fun ri => (ri <? fzero)%A in
  series_std0 (filter negative r).

End Series.

Arguments drawdown_frame F : clear implicits.

(** ** Higher moments and the parametric VaR *)

Section Moments.
Context {F : Type} {AF : Arith F}.

(** [x ** n] for an integer [n] (NumPy's [power]) and
    [scipy.stats.norm.ppf], library functions the module calls. *)
Variable power : F -> nat -> F.
Variable norm_ppf : F -> F.

(** [skewness] of a Series. *)
Definition skewness (returns : list F) : F :=
  let demeaned_returns := map (fun v => v - series_mean returns)%A returns in
  let expected_returns := series_mean (map (fun d => power d 3) demeaned_returns) in
  let sigma := series_std0 returns in
  (expected_returns / power sigma 3)%A.

(** [kurtosis] of a Series. *)
Definition kurtosis (returns : list F) : F :=
  let demeaned_returns := map (fun v => v - series_mean returns)%A returns in
  let expected_returns := series_mean (map (fun d => power d 4) demeaned_returns) in
  let sigma := series_std0 returns in
  (expected_returns / power sigma 4)%A.

(** [var_gaussian] of a Series. *)
Definition var_gaussian (r : list F) (level : F) (modified : bool) : F :=
  let z := norm_ppf (level / of_nat 100)%A in
  let z :=
    if modified then
      let s := skewness r in
      let k := kurtosis r in
      (z +
       (power z 2 - fone) * s / of_nat 6 +
       (power z 3 - of_nat 3 * z) * (k - of_nat 3) / of_nat 24 -
       (of_nat 2 * power z 3 - of_nat 5 * z) * (power s 2) / of_nat 36)%A
    else z in
  (- (series_mean r + z * series_std0 r))%A.

End Moments.

(** * Properties *)

(** ** binary64 facts read off the specification of the primitives *)

Section Binary64.
Open Scope float_scope.

Lemma round_aux_nan_or_nonneg mx ex lx :
  binary_round_aux prec emax false mx ex lx = S754_nan \/
  SFleb (S754_zero false) (binary_round_aux prec emax false mx ex lx) = true.
Proof.
  unfold binary_round_aux.
  destruct (shr_fexp prec emax mx ex lx) as [m1 e1].
  destruct (shr_fexp prec emax _ e1 loc_Exact) as [m2 e2].
  destruct (shr_m m2); [right; reflexivity | | left; reflexivity].
  destruct (Z.leb e2 _); right; reflexivity.
Qed.

Lemma is_nan_Prim2SF v : is_nan v = true <-> Prim2SF v = S754_nan.
Proof.
  unfold is_nan. rewrite FloatAxioms.eqb_spec. unfold SFeqb.
  destruct (Prim2SF v) as [s| s| |s m e]; simpl.
  - split; discriminate.
  - destruct s; simpl; split; discriminate.
  - split; reflexivity.
  - destruct s; simpl; rewrite Z.compare_refl, Pos.compare_cont_refl;
      simpl; split; discriminate.
Qed.

Lemma is_infinity_Prim2SF v :
  is_infinity v = true <-> exists s, Prim2SF v = S754_infinity s.
Proof.
  unfold is_infinity. rewrite FloatAxioms.eqb_spec, abs_spec.
  change (Prim2SF infinity) with (S754_infinity false). unfold SFeqb.
  destruct (Prim2SF v) as [s| s| |s m e]; simpl; split;
    try discriminate; eauto; intros [s' Hs']; discriminate.
Qed.

Lemma eqb_zero_Prim2SF v : (v =? 0) = true -> exists s, Prim2SF v = S754_zero s.
Proof.
  rewrite FloatAxioms.eqb_spec. change (Prim2SF 0) with (S754_zero false).
  unfold SFeqb.
  destruct (Prim2SF v) as [s| s| |s m e]; try destruct s; simpl;
    try discriminate; eauto.
Qed.

(** [np.sqrt] yields NaN or a non-negative number. *)
Lemma sqrt_nan_or_nonneg v :
  is_nan (PrimFloat.sqrt v) = true \/ (0 <=? PrimFloat.sqrt v) = true.
Proof.
  rewrite is_nan_Prim2SF, FloatAxioms.leb_spec, sqrt_spec.
  change (Prim2SF 0) with (S754_zero false).
  unfold SF64sqrt, SFsqrt.
  destruct (Prim2SF v) as [s| s| |s m e]; try destruct s; auto.
  destruct (SFsqrt_core_binary prec emax (Z.pos m) e) as [[mz ez] lz].
  apply round_aux_nan_or_nonneg.
Qed.

(** [np.sqrt] of a negative number is NaN. *)
Lemma sqrt_negative_nan v : (v <? 0) = true -> is_nan (PrimFloat.sqrt v) = true.
Proof.
  rewrite is_nan_Prim2SF, FloatAxioms.ltb_spec, sqrt_spec.
  change (Prim2SF 0) with (S754_zero false).
  unfold SF64sqrt, SFsqrt, SFltb.
  destruct (Prim2SF v) as [s| s| |s m e]; try destruct s; simpl; auto; discriminate.
Qed.

(** Dividing by a zero never gives a finite number. *)
Lemma div_zero_not_finite u v : (v =? 0) = true -> is_finite (u / v) = false.
Proof.
  intros Hv. destruct (eqb_zero_Prim2SF v Hv) as [s Hs].
  unfold is_finite. apply negb_false_iff, orb_true_iff.
  rewrite is_nan_Prim2SF, is_infinity_Prim2SF, div_spec, Hs.
  unfold SF64div, SFdiv.
  destruct (Prim2SF u) as [su| su| |su m e]; eauto.
Qed.

End Binary64.

(** ** Shapes *)

Section Shapes.
Context {F : Type} {AF : Arith F}.

Lemma matmul_vv_ok (u v : list F) :
  length u = length v ->
  matmul_vv u v = Ok (sum_upto (length u) (fun i => nth i u fzero * nth i v fzero)%A).
Proof.
  intros H. unfold matmul_vv. now rewrite (proj2 (Nat.eqb_eq _ _) H).
Qed.

Lemma matmul_vv_mismatch (u v : list F) :
  length u <> length v -> matmul_vv u v = Raise matmul_mismatch.
Proof.
  intros H. unfold matmul_vv. now rewrite (proj2 (Nat.eqb_neq _ _) H).
Qed.

Lemma matmul_vm_ok (u : list F) (m : matrix F) :
  length u = nrows m ->
  matmul_vm u m =
  Ok (map (fun j => sum_upto (nrows m) (fun i => nth i u fzero * entry m i j)%A)
          (seq 0 (ncols m))).
Proof.
  intros H. unfold matmul_vm. now rewrite (proj2 (Nat.eqb_eq _ _) H).
Qed.

Lemma matmul_vm_mismatch (u : list F) (m : matrix F) :
  length u <> nrows m -> matmul_vm u m = Raise matmul_mismatch.
Proof.
  intros H. unfold matmul_vm. now rewrite (proj2 (Nat.eqb_neq _ _) H).
Qed.

(** The quadratic form is defined exactly on the shapes that fit. *)
Lemma quadratic_form_ok (w : list F) (cov : matrix F) :
  length w = nrows cov -> ncols cov = length w ->
  exists q, quadratic_form w cov = Ok q.
Proof.
  intros Hr Hc. unfold quadratic_form.
  rewrite (matmul_vm_ok _ _ Hr). simpl.
  rewrite matmul_vv_ok; [eauto |].
  now rewrite length_map, length_seq.
Qed.

Lemma quadratic_form_mismatch (w : list F) (cov : matrix F) :
  length w <> nrows cov \/ nrows cov <> ncols cov ->
  quadratic_form w cov = Raise matmul_mismatch.
Proof.
  intros H. unfold quadratic_form.
  destruct (Nat.eq_dec (length w) (nrows cov)) as [Hr | Hr].
  - rewrite (matmul_vm_ok _ _ Hr). simpl.
    apply matmul_vv_mismatch. rewrite length_map, length_seq.
    destruct H as [H | H]; congruence.
  - now rewrite (matmul_vm_mismatch _ _ Hr).
Qed.

Lemma portfolio_vol_mismatch (w : list F) (cov : matrix F) :
  length w <> nrows cov \/ nrows cov <> ncols cov ->
  portfolio_vol w cov = Raise matmul_mismatch.
Proof.
  intros H. unfold portfolio_vol. now rewrite (quadratic_form_mismatch _ _ H).
Qed.

End Shapes.

(** ** Volatility: square root, NaN, and the order of the assets *)

Section Volatility64.
Open Scope float_scope.

(** C1, as the code has it: on fitting shapes [portfolio_vol] never raises;
    it returns the square root of the quadratic form, which is NaN or
    non-negative, and is NaN whenever the form is negative (no domain
    error is raised). *)
Theorem portfolio_vol_sqrt_or_nan (w : list float) (cov : matrix float) :
  length w = nrows cov -> ncols cov = length w ->
  exists q, quadratic_form w cov = Ok q /\
    portfolio_vol w cov = Ok (PrimFloat.sqrt q) /\
    (is_nan (PrimFloat.sqrt q) = true \/ (0 <=? PrimFloat.sqrt q) = true) /\
    ((q <? 0) = true -> is_nan (PrimFloat.sqrt q) = true).
Proof.
  intros Hr Hc.
  destruct (quadratic_form_ok w cov Hr Hc) as [q Hq].
  exists q. split; [exact Hq |]. split.
  - unfold portfolio_vol. rewrite Hq. reflexivity.
  - split; [apply sqrt_nan_or_nonneg | apply sqrt_negative_nan].
Qed.

Lemma portfolio_vol_sqrt_or_nan_witness :
  exists q, quadratic_form [1] (of_rows [[-1]]) = Ok q /\
    portfolio_vol [1] (of_rows [[-1]]) = Ok (PrimFloat.sqrt q) /\
    (is_nan (PrimFloat.sqrt q) = true \/ (0 <=? PrimFloat.sqrt q) = true) /\
    ((q <? 0) = true -> is_nan (PrimFloat.sqrt q) = true).
Proof.
  apply (portfolio_vol_sqrt_or_nan [1] (of_rows [[-1]])); reflexivity.
Defined.

(** C1, refuted as stated: for the 1x1 covariance matrix [[-1]] and the
    weight [1] the quadratic form is [-1 < 0], and [portfolio_vol]
    returns NaN instead of raising. *)
Lemma portfolio_vol_negative_form_returns_nan :
  quadratic_form [1] (of_rows [[-1]]) = Ok (-1) /\
  (-1 <? 0) = true /\
  portfolio_vol [1] (of_rows [[-1]]) = Ok nan.
Proof. vm_compute. repeat split. Qed.

(** C7: with a zero volatility the Sharpe objective raises nothing and
    its value is NaN or an infinity. *)
Theorem neg_sharpe_ratio_zero_vol_not_finite
        (w : list float) (rf : float) (er : list float) (cov : matrix float)
        (vol : float) :
  length w = length er ->
  portfolio_vol w cov = Ok vol ->
  (vol =? 0) = true ->
  exists v, neg_sharpe_ratio w rf er cov = Ok v /\ is_finite v = false.
Proof.
  intros Hlen Hvol Hz. unfold neg_sharpe_ratio, portfolio_return.
  rewrite (matmul_vv_ok w er Hlen), Hvol. simpl.
  eexists. split; [reflexivity |].
  now apply div_zero_not_finite.
Qed.

Lemma neg_sharpe_ratio_zero_vol_not_finite_witness :
  exists v, neg_sharpe_ratio [1] 0 [0.5] (of_rows [[0]]) = Ok v /\
            is_finite v = false.
Proof.
  apply (neg_sharpe_ratio_zero_vol_not_finite [1] 0 [0.5] (of_rows [[0]]) 0);
    reflexivity.
Defined.

End Volatility64.

Section PermutationSymmetry.
Context {F : Type} {AF : Arith F}.
Hypothesis add_comm : forall a b : F, (a + b)%A = (b + a)%A.
Hypothesis add_assoc : forall a b c : F, ((a + b) + c)%A = (a + (b + c))%A.

Lemma fold_left_fadd_perm (l l' : list F) :
  Permutation l l' -> forall acc, fold_left fadd l acc = fold_left fadd l' acc.
Proof.
  induction 1 as [| a l l' _ IH | a b l | l l' l'' _ IH1 _ IH2]; intros acc; simpl.
  - reflexivity.
  - apply IH.
  - f_equal. rewrite !add_assoc. f_equal. apply add_comm.
  - now rewrite IH1.
Qed.

Lemma np_sum_perm (l l' : list F) : Permutation l l' -> np_sum l = np_sum l'.
Proof. intros H. now apply fold_left_fadd_perm. Qed.

Lemma map_nth_seq_id {A : Type} (l : list A) (d : A) :
  map (fun i => nth i l d) (seq 0 (length l)) = l.
Proof.
  induction l as [| a l IH]; simpl; [reflexivity |].
  f_equal. rewrite <- seq_shift, map_map. exact IH.
Qed.

Lemma sum_upto_permuted (n : nat) (pi : list nat) (g : nat -> F) :
  Permutation pi (seq 0 n) ->
  sum_upto n (fun i => g (nth i pi 0%nat)) = sum_upto n g.
Proof.
  intros Hp. unfold sum_upto.
  assert (Hn : length pi = n)
    by (rewrite (Permutation_length Hp); apply length_seq).
  rewrite <- (map_map (fun i => nth i pi 0%nat) g).
  rewrite <- Hn at 1. rewrite map_nth_seq_id.
  apply np_sum_perm, Permutation_map, Hp.
Qed.

Lemma sum_upto_ext (n : nat) (f g : nat -> F) :
  (forall i, (i < n)%nat -> f i = g i) -> sum_upto n f = sum_upto n g.
Proof.
  intros H. unfold sum_upto. f_equal. apply map_ext_in.
  intros i Hi. apply in_seq in Hi. apply H. lia.
Qed.

Lemma nth_map_seq (n j : nat) (G : nat -> F) (d : F) :
  (j < n)%nat -> nth j (map G (seq 0 n)) d = G j.
Proof.
  intros Hj. rewrite (nth_indep _ d (G 0%nat)) by now rewrite length_map, length_seq.
  rewrite map_nth, seq_nth by exact Hj. reflexivity.
Qed.

Lemma nth_permute_vec (pi : list nat) (w : list F) (j : nat) :
  (j < length pi)%nat -> nth j (permute_vec pi w) fzero = nth (nth j pi 0%nat) w fzero.
Proof.
  intros Hj. unfold permute_vec.
  rewrite (nth_indep _ fzero (nth 0%nat w fzero)) by now rewrite length_map.
  apply (map_nth (fun i => nth i w fzero)).
Qed.

Lemma permutation_index_bound (n : nat) (pi : list nat) (j : nat) :
  Permutation pi (seq 0 n) -> (j < n)%nat -> (nth j pi 0%nat < n)%nat.
Proof.
  intros Hp Hj.
  assert (Hn : length pi = n)
    by (rewrite (Permutation_length Hp); apply length_seq).
  assert (Hin : In (nth j pi 0%nat) (seq 0 n)).
  { apply (Permutation_in _ Hp), nth_In. lia. }
  apply in_seq in Hin. lia.
Qed.

(** C8, as the code has it: in arithmetic whose addition is associative
    and commutative (exact arithmetic), reordering the weights and,
    consistently, the rows and columns of the covariance matrix leaves the
    volatility unchanged. *)
Theorem portfolio_vol_permutation_invariant
        (pi : list nat) (w : list F) (cov : matrix F) :
  Permutation pi (seq 0 (length w)) ->
  nrows cov = length w -> ncols cov = length w ->
  portfolio_vol (permute_vec pi w) (permute_mat pi cov) = portfolio_vol w cov.
Proof.
  intros Hp Hr Hc.
  set (n := length w) in *.
  assert (Hn : length pi = n)
    by (rewrite (Permutation_length Hp); apply length_seq).
  unfold portfolio_vol, quadratic_form.
  rewrite (matmul_vm_ok (permute_vec pi w) (permute_mat pi cov))
    by (unfold permute_vec; simpl; now rewrite length_map).
  rewrite (matmul_vm_ok w cov) by (fold n; congruence).
  simpl.
  rewrite !matmul_vv_ok
    by (unfold permute_vec; rewrite ?length_map, ?length_seq; fold n; congruence).
  simpl. do 2 f_equal.
  rewrite !length_map, !length_seq, Hn, Hr, Hc.
  rewrite <- (sum_upto_permuted n pi
               (fun j => nth j (map (fun j0 => sum_upto n
                   (fun i => nth i w fzero * entry cov i j0)%A) (seq 0 n)) fzero
                         * nth j w fzero)%A Hp).
  apply sum_upto_ext. intros j Hj.
  pose proof (permutation_index_bound n pi j Hp Hj) as Hb.
  rewrite !nth_map_seq by assumption.
  rewrite nth_permute_vec by lia.
  f_equal.
  rewrite <- (sum_upto_permuted n pi
               (fun i => nth i w fzero * entry cov i (nth j pi 0%nat))%A Hp).
  apply sum_upto_ext. intros i Hi.
  now rewrite nth_permute_vec by lia.
Qed.

End PermutationSymmetry.

Lemma portfolio_vol_permutation_invariant_witness :
  portfolio_vol (permute_vec [1; 0]%nat [1; 2]%R)
                (permute_mat [1; 0]%nat (of_rows [[1; 0]; [0; 4]]%R))
  = portfolio_vol [1; 2]%R (of_rows [[1; 0]; [0; 4]]%R).
Proof.
  apply (@portfolio_vol_permutation_invariant R exact Rplus_comm Rplus_assoc
           [1; 0]%nat [1; 2]%R (of_rows [[1; 0]; [0; 4]]%R)).
  - apply perm_swap.
  - reflexivity.
  - reflexivity.
Defined.

(** ** The optimisers: which problem they pose, and when *)

Section Optimisers.
Context {F : Type} {AF : Arith F}.

(** The problem [minimize_vol] hands to the solver. *)
Lemma minimize_vol_call (target_return : F) (er : list F) (cov : matrix F) :
  er <> [] ->
  minimize_vol target_return er cov =
  Minimize {|
    objective := fun weights => portfolio_vol weights cov;
    x0 := repeat (fone / of_nat (length er))%A (length er);
    method := "SLSQP";
    bounds := repeat (fzero, fone) (length er);
    constraints :=
      [ {| ctype := eq_kind;
           cfun := fun weights => Ok (np_sum weights - fone)%A |};
        {| ctype := eq_kind;
           cfun := fun weights =>
                     r <- portfolio_return weights er ;; Ok (target_return - r)%A |} ];
    disp := false
  |} (fun weights => Ret (x weights)).
Proof.
  intros Hne. destruct er as [| e er]; [contradiction | reflexivity].
Qed.

(** The problem [msr] hands to the solver. *)
Lemma msr_call (riskfree_rate : F) (er : list F) (cov : matrix F) :
  er <> [] ->
  msr riskfree_rate er cov =
  Minimize {|
    objective := fun weights => neg_sharpe_ratio weights riskfree_rate er cov;
    x0 := repeat (fone / of_nat (length er))%A (length er);
    method := "SLSQP";
    bounds := repeat (fzero, fone) (length er);
    constraints :=
      [ {| ctype := eq_kind;
           cfun := fun weights => Ok (np_sum weights - fone)%A |} ];
    disp := false
  |} (fun weights => Ret (x weights)).
Proof.
  intros Hne. destruct er as [| e er]; [contradiction | reflexivity].
Qed.

(** With no asset the initial guess [1/n] cannot be formed. *)
Lemma minimize_vol_no_asset (target_return : F) (cov : matrix F) :
  minimize_vol target_return [] cov = Throw (ZeroDivisionError "division by zero").
Proof. reflexivity. Qed.

Lemma within_bounds_repeat (lo hi : F) (n : nat) (v : list F) :
  within_bounds (repeat (lo, hi) n) v = true <->
  length v = n /\ Forall (fun vi => (lo <=? vi)%A = true /\ (vi <=? hi)%A = true) v.
Proof.
  unfold within_bounds. rewrite repeat_length, andb_true_iff, Nat.eqb_eq.
  split; intros [Hlen H]; (split; [exact Hlen |]); subst n.
  - induction v as [| a v IH]; [constructor |].
    simpl in H. apply andb_true_iff in H as [Ha H].
    apply andb_true_iff in Ha. constructor; [exact Ha | exact (IH H)].
  - induction H as [| a v Ha _ IH]; [reflexivity |].
    simpl. rewrite IH. now rewrite (proj1 Ha), (proj2 Ha).
Qed.

(** Feasibility for the problem of [minimize_vol], spelt out: the bounds,
    the budget constraint and the target-return constraint. *)
Lemma minimize_vol_feasible (tol target_return : F) (er : list F) (cov : matrix F)
      (p : problem F) (w : list F) :
  solver_problem (minimize_vol target_return er cov) = Some p ->
  (feasibleb tol p w = true <->
   weights_ok tol (length er) w /\
   exists r, portfolio_return w er = Ok r /\
             (fabs (target_return - r) <=? tol)%A = true).
Proof.
  intros Hp.
  assert (Hne : er <> []) by (intros ->; discriminate).
  rewrite (minimize_vol_call _ _ _ Hne) in Hp. injection Hp as <-.
  unfold feasibleb, weights_ok. cbn [x0 bounds constraints forallb].
  rewrite !andb_true_iff, within_bounds_repeat, repeat_length, Nat.eqb_eq.
  unfold constraint_met at 1 2. cbn [cfun ctype].
  destruct (portfolio_return w er) as [r |] eqn:Hr; cbn [bind].
  - split.
    + intros [[Hl [_ Hb]] [Hs [Ht _]]]. repeat split; eauto.
    + intros [[Hl [Hb Hs]] [r' [[= <-] Ht]]]. repeat split; assumption.
  - split.
    + intros [_ [_ [Hf _]]]. discriminate.
    + intros [_ [r' [Hf _]]]. discriminate.
Qed.

(** Feasibility for the problem of [msr]: the bounds and the budget. *)
Lemma msr_feasible (tol riskfree_rate : F) (er : list F) (cov : matrix F)
      (p : problem F) (w : list F) :
  solver_problem (msr riskfree_rate er cov) = Some p ->
  (feasibleb tol p w = true <-> weights_ok tol (length er) w).
Proof.
  intros Hp.
  assert (Hne : er <> []) by (intros ->; discriminate).
  rewrite (msr_call _ _ _ Hne) in Hp. injection Hp as <-.
  unfold feasibleb, weights_ok. cbn [x0 bounds constraints forallb].
  rewrite !andb_true_iff, within_bounds_repeat, repeat_length, Nat.eqb_eq.
  unfold constraint_met. cbn [cfun ctype].
  split.
  - intros [[Hl [_ Hb]] [Hs _]]. repeat split; assumption.
  - intros [Hl [Hb Hs]]. repeat split; assumption.
Qed.

Lemma run_pbind {A B : Type} (solver : problem F -> result (OptimizeResult F))
      (m : prog F A) (f : A -> prog F B) :
  run solver (pbind m f) = (a <- run solver m ;; run solver (f a)).
Proof.
  induction m as [a | e | p k IH]; simpl; try reflexivity.
  destruct (solver p) as [r |]; [apply IH | reflexivity].
Qed.

Lemma converged_pbind {A B : Type} (solver : problem F -> result (OptimizeResult F))
      (m : prog F A) (f : A -> prog F B) :
  converged solver (pbind m f) =
  converged solver m &&
  match run solver m with
  | Ok a => converged solver (f a)
  | Raise _ => true
  end.
Proof.
  induction m as [a | e | p k IH]; simpl; try reflexivity.
  destruct (solver p) as [r |]; [| reflexivity].
  rewrite IH. apply andb_assoc.
Qed.

(** A run of [minimize_vol] that returns is one solver call. *)
Lemma minimize_vol_run (solver : problem F -> result (OptimizeResult F))
      (target_return : F) (er : list F) (cov : matrix F) (w : list F) :
  run solver (minimize_vol target_return er cov) = Ok w ->
  exists p r, solver_problem (minimize_vol target_return er cov) = Some p /\
              solver p = Ok r /\ w = x r /\
              converged solver (minimize_vol target_return er cov) = success r.
Proof.
  intros Hrun.
  assert (Hne : er <> []) by (intros ->; discriminate).
  revert Hrun. rewrite (minimize_vol_call _ _ _ Hne).
  cbn [run converged solver_problem].
  match goal with |- context [solver ?q] => set (p := q) end.
  destruct (solver p) as [r |] eqn:Hs; [| discriminate].
  intros [= <-]. exists p, r. rewrite andb_true_r. auto.
Qed.

Lemma msr_run (solver : problem F -> result (OptimizeResult F))
      (riskfree_rate : F) (er : list F) (cov : matrix F) (w : list F) :
  run solver (msr riskfree_rate er cov) = Ok w ->
  exists p r, solver_problem (msr riskfree_rate er cov) = Some p /\
              solver p = Ok r /\ w = x r /\
              converged solver (msr riskfree_rate er cov) = success r.
Proof.
  intros Hrun.
  assert (Hne : er <> []) by (intros ->; discriminate).
  revert Hrun. rewrite (msr_call _ _ _ Hne).
  cbn [run converged solver_problem].
  match goal with |- context [solver ?q] => set (p := q) end.
  destruct (solver p) as [r |] eqn:Hs; [| discriminate].
  intros [= <-]. exists p, r. rewrite andb_true_r. auto.
Qed.

Lemma idle_solver_contract (tol : F) : slsqp_contract tol (idle_solver tol).
Proof. intros p r [= <-] Hs. exact Hs. Qed.

End Optimisers.

Section OptimiserClaims.
Context {F : Type} {AF : Arith F}.

Lemma run_lift {A : Type} (solver : problem F -> result (OptimizeResult F))
      (m : result A) :
  run solver (lift m) = m.
Proof. destruct m; reflexivity. Qed.

Lemma converged_lift {A : Type} (solver : problem F -> result (OptimizeResult F))
      (m : result A) :
  converged solver (lift m) = true.
Proof. destruct m; reflexivity. Qed.

Lemma pmapM_Forall {A B : Type} (solver : problem F -> result (OptimizeResult F))
      (f : A -> prog F B) (P : B -> Prop) :
  (forall a b, converged solver (f a) = true -> run solver (f a) = Ok b -> P b) ->
  forall l bs, converged solver (pmapM f l) = true ->
               run solver (pmapM f l) = Ok bs -> Forall P bs.
Proof.
  intros Hf. induction l as [| a l IH]; intros bs Hc Hr.
  - injection Hr as <-. constructor.
  - cbn [pmapM] in Hc, Hr.
    rewrite converged_pbind in Hc. rewrite run_pbind in Hr.
    apply andb_true_iff in Hc as [Hca Hc].
    destruct (run solver (f a)) as [b |] eqn:Hb; [| discriminate].
    cbn [bind] in Hr.
    rewrite converged_pbind in Hc. rewrite run_pbind in Hr.
    apply andb_true_iff in Hc as [Hcl _].
    destruct (run solver (pmapM f l)) as [bs' |] eqn:Hbs; [| discriminate].
    injection Hr as <-.
    constructor; [exact (Hf a b Hca Hb) | exact (IH bs' Hcl eq_refl)].
Qed.

(** C2, as the code has it: neither optimiser looks at the shapes.  With
    at least one asset the first thing each does is to call the solver,
    on an initial guess as long as [er]; when the shapes do not fit, it is
    the objective it passed that raises, at that initial guess. *)
Theorem optimisers_check_no_shapes
        (target_return riskfree_rate : F) (er : list F) (cov : matrix F) :
  er <> [] ->
  (exists p, solver_problem (minimize_vol target_return er cov) = Some p /\
     length (x0 p) = length er /\
     (malformed er cov = true -> objective p (x0 p) = Raise matmul_mismatch)) /\
  (exists p, solver_problem (msr riskfree_rate er cov) = Some p /\
     length (x0 p) = length er /\
     (malformed er cov = true -> objective p (x0 p) = Raise matmul_mismatch)).
Proof.
  intros Hne.
  assert (Hshape : forall w : list F, length w = length er -> malformed er cov = true ->
                             length w <> nrows cov \/ nrows cov <> ncols cov).
  { intros w Hw Hm. unfold malformed in Hm. rewrite <- Hw in Hm.
    apply orb_true_iff in Hm as [Hm | Hm];
      apply negb_true_iff, Nat.eqb_neq in Hm; auto. }
  split.
  - rewrite (minimize_vol_call _ _ _ Hne). eexists. split; [reflexivity |].
    cbn [x0 objective]. rewrite repeat_length. split; [reflexivity |].
    intros Hm. apply portfolio_vol_mismatch, Hshape; [apply repeat_length | exact Hm].
  - rewrite (msr_call _ _ _ Hne). eexists. split; [reflexivity |].
    cbn [x0 objective]. rewrite repeat_length. split; [reflexivity |].
    intros Hm. unfold neg_sharpe_ratio, portfolio_return.
    rewrite matmul_vv_ok by apply repeat_length. cbn [bind].
    rewrite portfolio_vol_mismatch; [reflexivity |].
    apply Hshape; [apply repeat_length | exact Hm].
Qed.


Section UnderContract.
Variable tol : F.
Variable solver : problem F -> result (OptimizeResult F).
Hypothesis contract : slsqp_contract tol solver.

Lemma minimize_vol_feasible_result (target_return : F) (er : list F)
      (cov : matrix F) (w : list F) :
  converged solver (minimize_vol target_return er cov) = true ->
  run solver (minimize_vol target_return er cov) = Ok w ->
  weights_ok tol (length er) w /\
  exists r, portfolio_return w er = Ok r /\
            (fabs (target_return - r) <=? tol)%A = true.
Proof.
  intros Hc Hr.
  destruct (minimize_vol_run solver _ _ _ _ Hr) as [p [r [Hp [Hs [-> Hcs]]]]].
  apply (minimize_vol_feasible tol _ _ _ _ _ Hp).
  apply (contract p r Hs). now rewrite <- Hcs.
Qed.

Lemma msr_feasible_result (riskfree_rate : F) (er : list F)
      (cov : matrix F) (w : list F) :
  converged solver (msr riskfree_rate er cov) = true ->
  run solver (msr riskfree_rate er cov) = Ok w ->
  weights_ok tol (length er) w.
Proof.
  intros Hc Hr.
  destruct (msr_run solver _ _ _ _ Hr) as [p [r [Hp [Hs [-> Hcs]]]]].
  apply (msr_feasible tol _ _ _ _ _ Hp).
  apply (contract p r Hs). now rewrite <- Hcs.
Qed.



End UnderContract.

(** C10: unless [er] has exactly two entries, [plot_ef2] raises its
    ValueError, whatever [n_points] and [cov] are: nothing that could
    itself fail (the sample points, the returns, the volatilities) is
    evaluated first. *)
Theorem plot_ef2_rejects_other_sizes (n_points : Z) (er : list F) (cov : matrix F) :
  length er <> 2%nat ->
  plot_ef2 n_points er cov =
  Raise (ValueError "plot_ef2 can only plot 2 asset frontiers.").
Proof.
  intros H. unfold plot_ef2.
  now rewrite (proj2 (Nat.eqb_neq _ _) H).
Qed.

End OptimiserClaims.

(** ** The optimiser claims at concrete binary64 inputs *)

Section Optimisers64.
Open Scope float_scope.

Lemma optimisers_check_no_shapes_witness :
  (exists p, solver_problem
               (minimize_vol 0.5 [0.5; 0.25] (of_rows [[1; 0; 0]; [0; 1; 0]; [0; 0; 1]]))
             = Some p /\
     length (x0 p) = length [0.5; 0.25] /\
     (malformed [0.5; 0.25] (of_rows [[1; 0; 0]; [0; 1; 0]; [0; 0; 1]]) = true ->
      objective p (x0 p) = Raise matmul_mismatch)) /\
  (exists p, solver_problem
               (msr 0 [0.5; 0.25] (of_rows [[1; 0; 0]; [0; 1; 0]; [0; 0; 1]]))
             = Some p /\
     length (x0 p) = length [0.5; 0.25] /\
     (malformed [0.5; 0.25] (of_rows [[1; 0; 0]; [0; 1; 0]; [0; 0; 1]]) = true ->
      objective p (x0 p) = Raise matmul_mismatch)).
Proof.
  apply (@optimisers_check_no_shapes float float64 0.5 0 [0.5; 0.25]
           (of_rows [[1; 0; 0]; [0; 1; 0]; [0; 0; 1]])).
  discriminate.
Defined.

(** C2, refuted as stated: two expected returns against a 3x3 covariance
    matrix (lengths disagree) and against a 2x3 one (not square) are
    malformed, yet neither optimiser raises first: each goes straight to
    the solver. *)
Lemma optimisers_call_solver_on_malformed_input :
  malformed [0.5; 0.25] (of_rows [[1; 0; 0]; [0; 1; 0]; [0; 0; 1]]) = true /\
  fails_first (minimize_vol 0.5 [0.5; 0.25] (of_rows [[1; 0; 0]; [0; 1; 0]; [0; 0; 1]]))
  = false /\
  invokes_solver (minimize_vol 0.5 [0.5; 0.25] (of_rows [[1; 0; 0]; [0; 1; 0]; [0; 0; 1]]))
  = true /\
  fails_first (msr 0 [0.5; 0.25] (of_rows [[1; 0; 0]; [0; 1; 0]; [0; 0; 1]])) = false /\
  invokes_solver (msr 0 [0.5; 0.25] (of_rows [[1; 0; 0]; [0; 1; 0]; [0; 0; 1]])) = true /\
  malformed [0.5; 0.25] (of_rows [[1; 0; 0]; [0; 1; 0]]) = true /\
  fails_first (minimize_vol 0.5 [0.5; 0.25] (of_rows [[1; 0; 0]; [0; 1; 0]])) = false /\
  fails_first (msr 0 [0.5; 0.25] (of_rows [[1; 0; 0]; [0; 1; 0]])) = false.
Proof. repeat split. Qed.




Lemma plot_ef2_rejects_other_sizes_witness :
  plot_ef2 (-1) [0.5; 0.25; 0.125] (of_rows [[1; 0]; [0; 1]]) =
  Raise (ValueError "plot_ef2 can only plot 2 asset frontiers.").
Proof.
  apply (@plot_ef2_rejects_other_sizes float float64 (-1) [0.5; 0.25; 0.125]
           (of_rows [[1; 0]; [0; 1]])).
  discriminate.
Defined.

End Optimisers64.

(** ** Historic VaR: dispatch on the type of [r] *)

Section HistoricVaR.
Context {F : Type} {AF : Arith F}.

Lemma bind_no_type_error {A B : Type} (m : result A) (f : A -> result B) :
  is_type_error m = false ->
  (forall a, is_type_error (f a) = false) ->
  is_type_error (bind m f) = false.
Proof. intros Hm Hf. destruct m as [a | e]; [apply Hf | exact Hm]. Qed.

Lemma mapM_no_type_error {A B : Type} (f : A -> result B) (l : list A) :
  (forall a, is_type_error (f a) = false) ->
  is_type_error (mapM f l) = false.
Proof.
  intros Hf. induction l as [| a l IH]; [reflexivity |].
  cbn [mapM]. apply bind_no_type_error; [apply Hf |].
  intros b. apply bind_no_type_error; [exact IH | reflexivity].
Qed.

Lemma np_percentile_no_type_error (a : list F) (q : F) :
  is_type_error (np_percentile a q) = false.
Proof.
  unfold np_percentile.
  destruct (negb _); [reflexivity |].
  destruct (np_sort a); [reflexivity |].
  destruct (negb _); reflexivity.
Qed.

Lemma var_historic_series_no_type_error (r : list F) (level : F) :
  is_type_error (var_historic_series r level) = false.
Proof.
  unfold var_historic_series.
  apply bind_no_type_error; [apply np_percentile_no_type_error | reflexivity].
Qed.

Lemma cvar_historic_series_no_type_error (r : list F) (level : F) :
  is_type_error (cvar_historic_series r level) = false.
Proof.
  unfold cvar_historic_series.
  apply bind_no_type_error; [apply var_historic_series_no_type_error | reflexivity].
Qed.

Lemma aggregate_no_type_error (f : list F -> result F)
      (columns : list (string * list F)) :
  (forall c, is_type_error (f c) = false) ->
  is_type_error (aggregate f columns) = false.
Proof.
  intros Hf. unfold aggregate.
  destruct (_ || _).
  - destruct (f []); reflexivity.
  - unfold fmap. apply bind_no_type_error; [| reflexivity].
    apply mapM_no_type_error. intros c.
    apply bind_no_type_error; [apply Hf | reflexivity].
Qed.

Lemma mapM_Forall2 {A B : Type} (g : A -> result B) (l : list A) :
  forall bs, mapM g l = Ok bs <-> Forall2 (fun a b => g a = Ok b) l bs.
Proof.
  induction l as [| a l IH]; intros bs; cbn [mapM].
  - split; [intros [= <-]; constructor | intros H; inversion H; reflexivity].
  - split.
    + destruct (g a) as [b |] eqn:Hb; [| discriminate]. cbn [bind].
      destruct (mapM g l) as [bs' |] eqn:Hbs; [| discriminate].
      intros [= <-]. constructor; [exact Hb | now apply IH].
    + intros H. inversion H as [| ? b ? bs' Hb Hl]; subst.
      rewrite Hb. cbn [bind]. apply IH in Hl. rewrite Hl. reflexivity.
Qed.

(** On a frame with a row and a column the aggregate carries, under each
    column's label, what the function returns on that column. *)
Lemma aggregate_columnwise (f : list F -> result F)
      (columns : list (string * list F)) (s : list (string * F)) :
  columns <> [] -> frame_rows columns <> 0%nat ->
  (aggregate f columns = Ok (Labelled s) <->
   Forall2 (fun c lv => fst lv = fst c /\ f (snd c) = Ok (snd lv)) columns s).
Proof.
  intros Hc Hr. unfold aggregate.
  assert (Hlen : (length columns =? 0)%nat = false)
    by (destruct columns; [contradiction | reflexivity]).
  rewrite Hlen, (proj2 (Nat.eqb_neq _ _) Hr). cbn [orb].
  assert (Hiff : forall m : result (list (string * F)),
             fmap Labelled m = Ok (Labelled s) <-> m = Ok s).
  { intros [m |]; cbn; split; intros H; try discriminate; congruence. }
  rewrite Hiff, mapM_Forall2.
  split; apply Forall2_impl; intros c [lbl v]; cbn [fst snd].
  - destruct (f (snd c)) as [v' |]; [| discriminate]. cbn [bind].
    intros [= <- <-]. auto.
  - intros [-> Hv]. rewrite Hv. reflexivity.
Qed.

Lemma fmap_Scalar_iff (m : result F) (v : F) :
  fmap Scalar m = Ok (Scalar v) <-> m = Ok v.
Proof.
  destruct m as [v' |]; cbn; split; intros H; try discriminate; congruence.
Qed.

Lemma Forall2_equiv {A B : Type} (P Q : A -> B -> Prop) (l : list A) (l' : list B) :
  (forall a b, P a b <-> Q a b) -> (Forall2 P l l' <-> Forall2 Q l l').
Proof.
  intros H. split; apply Forall2_impl; intros a b; apply H.
Qed.

(** C9, as the code has it: anything but a Series or a DataFrame gets the
    TypeError.  A DataFrame never gets that TypeError, and when it has a
    row and a column it is handled column by column: the result carries,
    under each column's label, what the function returns on that column
    taken as a Series. *)
Theorem historic_var_type_dispatch (r : pyobj F) (level : F) :
  (is_series_or_frame r = false ->
   var_historic r level = Raise (TypeError "Expected r to be a Series or DataFrame.") /\
   cvar_historic r level = Raise (TypeError "Expected r to be a Series or DataFrame.")) /\
  (forall columns, r = PyDataFrame columns ->
   is_type_error (var_historic r level) = false /\
   is_type_error (cvar_historic r level) = false /\
   (columns <> [] -> frame_rows columns <> 0%nat ->
    forall s,
      (var_historic r level = Ok (Labelled s) <->
       Forall2 (fun c lv => fst lv = fst c /\
                  var_historic (PySeries (snd c)) level = Ok (Scalar (snd lv)))
               columns s) /\
      (cvar_historic r level = Ok (Labelled s) <->
       Forall2 (fun c lv => fst lv = fst c /\
                  cvar_historic (PySeries (snd c)) level = Ok (Scalar (snd lv)))
               columns s))).
Proof.
  split.
  - intros Hr. destruct r; try discriminate Hr; split; reflexivity.
  - intros columns ->. cbn [var_historic cvar_historic].
    split; [| split; [| intros Hc Hrows s; split]].
    + apply aggregate_no_type_error. intros c. apply var_historic_series_no_type_error.
    + apply aggregate_no_type_error. intros c. apply cvar_historic_series_no_type_error.
    + rewrite (aggregate_columnwise _ columns s Hc Hrows).
      apply Forall2_equiv. intros c lv. now rewrite fmap_Scalar_iff.
    + rewrite (aggregate_columnwise _ columns s Hc Hrows).
      apply Forall2_equiv. intros c lv. now rewrite fmap_Scalar_iff.
Qed.

End HistoricVaR.

Section HistoricVaR64.
Open Scope float_scope.

Lemma historic_var_type_dispatch_witness :
  var_historic (PyList [0.5; -0.25]) 5
  = Raise (TypeError "Expected r to be a Series or DataFrame.") /\
  cvar_historic (PyList [0.5; -0.25]) 5
  = Raise (TypeError "Expected r to be a Series or DataFrame.").
Proof.
  apply (proj1 (@historic_var_type_dispatch float float64 (PyList [0.5; -0.25]) 5)).
  reflexivity.
Defined.

(** C9, refuted as stated: on a DataFrame with the single column
    [A = [0.5, -0.25]] and [level = 101] both functions raise, the
    ValueError of the percentile computation. *)
Lemma historic_var_dataframe_raises :
  var_historic (PyDataFrame [("A"%string, [0.5; -0.25])]) 101
  = Raise (ValueError "Percentiles must be in the range [0, 100]") /\
  cvar_historic (PyDataFrame [("A"%string, [0.5; -0.25])]) 101
  = Raise (ValueError "Percentiles must be in the range [0, 100]").
Proof. vm_compute. split; reflexivity. Qed.

(** The same DataFrame at the median is aggregated column-wise. *)
Example var_historic_dataframe_median :
  var_historic (PyDataFrame [("A"%string, [0.5; -0.25])]) 50
  = Ok (Labelled [("A"%string, -0.125)]).
Proof. vm_compute. reflexivity. Qed.

End HistoricVaR64.

(** ** Maximum Sharpe ratio against minimum variance, in exact arithmetic *)

Section SharpeAndVariance.
Open Scope R_scope.

Lemma exact_leb_iff (a b : R) : (a <=? b)%A = true <-> a <= b.
Proof.
  cbn [fleb exact]. destruct (Rle_dec a b); split; intros H;
    try reflexivity; try assumption; try discriminate; contradiction.
Qed.

Lemma fold_left_Rplus_scale {A : Type} (c : R) (g : A -> R) (l : list A) :
  forall acc, fold_left Rplus (map (fun i => c * g i) l) (c * acc)
              = c * fold_left Rplus (map g l) acc.
Proof.
  induction l as [| a l IH]; intros acc; simpl; [reflexivity |].
  rewrite <- Rmult_plus_distr_l. apply IH.
Qed.

Lemma nth_repeat_scale (c : R) (n i : nat) :
  nth i (repeat c n) 0 = c * nth i (repeat 1 n) 0.
Proof.
  revert i. induction n as [| n IH]; intros [| i]; simpl; try ring. apply IH.
Qed.

(** With all expected returns equal to [c], the portfolio return is [c]
    times the one for unit returns. *)
Lemma portfolio_return_equal_returns (c : R) (n : nat) (w : list R) :
  portfolio_return w (repeat c n) = fmap (Rmult c) (portfolio_return w (repeat 1 n)).
Proof.
  unfold portfolio_return, matmul_vv. rewrite !repeat_length.
  destruct (length w =? n)%nat; [| reflexivity].
  cbn [fmap bind]. f_equal. unfold sum_upto, np_sum. cbn [fzero fmul fadd exact].
  rewrite <- (Rmult_0_r c) at 1.
  rewrite <- fold_left_Rplus_scale. f_equal.
  apply map_ext. intros i. rewrite nth_repeat_scale. ring.
Qed.

(** ... and so is the Sharpe objective at a zero risk-free rate. *)
Lemma neg_sharpe_ratio_equal_returns (c : R) (n : nat) (cov : matrix R) (w : list R) :
  neg_sharpe_ratio w 0 (repeat c n) cov
  = fmap (Rmult c) (neg_sharpe_ratio w 0 (repeat 1 n) cov).
Proof.
  unfold neg_sharpe_ratio. rewrite portfolio_return_equal_returns.
  destruct (portfolio_return w (repeat 1 n)) as [r |]; [| reflexivity].
  cbn [fmap bind].
  destruct (portfolio_vol w cov) as [vol |]; [| reflexivity].
  cbn [bind fmap fneg fsub fdiv exact]. f_equal. unfold Rdiv. ring.
Qed.

(** Scaling the objective by a positive factor keeps the minimisers. *)
Lemma minimises_scaled (c : R) (p q : problem R) :
  0 < c ->
  (forall v, feasibleb 0 p v = true <-> feasibleb 0 q v = true) ->
  (forall v, objective p v = fmap (Rmult c) (objective q v)) ->
  forall w, minimises p w <-> minimises q w.
Proof.
  intros Hc Hfeas Hobj w. unfold minimises. cbn [fzero exact] in *.
  split; intros [Hf [y [Hy Hmin]]].
  - split; [now apply Hfeas |].
    rewrite Hobj in Hy.
    destruct (objective q w) as [y1 |] eqn:Hq; [| discriminate].
    injection Hy as <-. exists y1. split; [reflexivity |].
    intros v' y' Hf' Hy'. apply exact_leb_iff.
    apply (Rmult_le_reg_l c); [exact Hc |].
    apply exact_leb_iff. apply (Hmin v'); [now apply Hfeas |].
    rewrite Hobj, Hy'. reflexivity.
  - split; [now apply Hfeas |].
    exists (c * y). split; [rewrite Hobj, Hy; reflexivity |].
    intros v' y' Hf' Hy'. rewrite Hobj in Hy'.
    destruct (objective q v') as [y1' |] eqn:Hq; [| discriminate].
    injection Hy' as <-. apply exact_leb_iff.
    apply Rmult_le_compat_l; [lra |].
    apply exact_leb_iff. apply (Hmin v'); [now apply Hfeas | exact Hq].
Qed.

End SharpeAndVariance.

(** For a positive common return the two problems have the same
    minimisers. *)
Lemma msr_equal_returns_same_minimisers
      (c : R) (cov : matrix R) (p_msr p_gmv : problem R) (w : list R) :
  (0 < c)%R ->
  solver_problem (msr 0%R (repeat c (nrows cov)) cov) = Some p_msr ->
  solver_problem (gmv cov) = Some p_gmv ->
  (minimises p_msr w <-> minimises p_gmv w).
Proof.
  intros Hc Hm Hg.
  apply (minimises_scaled c); [exact Hc | |].
  - intros v.
    rewrite (msr_feasible 0%R 0%R _ cov p_msr v Hm).
    rewrite (msr_feasible 0%R 0%R _ cov p_gmv v Hg).
    rewrite !repeat_length. reflexivity.
  - intros v. unfold gmv in Hg.
    assert (Hne : forall a : R, repeat a (nrows cov) <> []).
    { intros a Hnil. destruct (nrows cov); discriminate. }
    rewrite (msr_call _ _ _ (Hne c)) in Hm.
    rewrite (msr_call _ _ _ (Hne 1%R)) in Hg.
    injection Hm as <-. injection Hg as <-. cbn [objective].
    apply neg_sharpe_ratio_equal_returns.
Qed.


(** *** Two assets with covariance [[1, 0], [0, 4]] *)

Section TwoAssets.
Open Scope R_scope.

Lemma exact_weights_ok_pair (v : list R) :
  weights_ok 0 2 v <->
  exists a b, v = [a; b] /\ 0 <= a <= 1 /\ 0 <= b <= 1 /\ a + b = 1.
Proof.
  unfold weights_ok. split.
  - intros [Hl [Hb Hs]].
    destruct v as [| a [| b [| c v]]]; try discriminate Hl.
    exists a, b. split; [reflexivity |].
    inversion Hb as [| ? ? [Ha0 Ha1] Hb']; subst.
    inversion Hb' as [| ? ? [Hb0 Hb1] _]; subst.
    apply exact_leb_iff in Ha0, Ha1, Hb0, Hb1, Hs.
    cbn [fzero fone exact] in *.
    unfold np_sum in Hs. cbn [fold_left fadd fsub fabs fzero fone exact] in Hs.
    repeat split; try assumption.
    pose proof (Rabs_pos (0 + a + b - 1)) as Hp.
    assert (Hz : Rabs (0 + a + b - 1) = 0) by lra.
    destruct (Req_dec (0 + a + b - 1) 0) as [He | Hne]; [lra |].
    apply Rabs_no_R0 in Hne. contradiction.
  - intros [a [b [-> [Ha [Hb Hs]]]]].
    split; [reflexivity |]. split.
    + repeat constructor; apply exact_leb_iff; cbn [fzero fone exact]; lra.
    + apply exact_leb_iff. unfold np_sum.
      cbn [fold_left fadd fsub fabs fzero fone exact].
      replace (0 + a + b - 1) with 0 by lra. rewrite Rabs_R0. lra.
Qed.

(** The Sharpe objective for equal returns [e] on a fully invested pair. *)
Lemma neg_sharpe_ratio_pair (e a b : R) :
  a + b = 1 ->
  neg_sharpe_ratio [a; b] 0 [e; e] (of_rows [[1; 0]; [0; 4]])
  = Ok (- e * (1 / R_sqrt.sqrt (a * a + 4 * (b * b)))).
Proof.
  intros Hs.
  unfold neg_sharpe_ratio, portfolio_return, portfolio_vol, quadratic_form,
    matmul_vv, matmul_vm, sum_upto, np_sum, of_rows.
  cbn [length Nat.eqb nrows ncols entry hd seq map nth fold_left bind
       fzero fone fadd fsub fmul fdiv fneg fsqrt exact].
  f_equal.
  replace (0 + (0 + a * 1 + b * 0) * a + (0 + a * 0 + b * 4) * b)
    with (a * a + 4 * (b * b)) by ring.
  replace (0 + a * e + b * e - 0) with (e * (a + b)) by ring.
  rewrite Hs. unfold Rdiv. ring.
Qed.

Lemma inv_sqrt_antitone (u v : R) :
  0 < u -> u <= v -> 1 / R_sqrt.sqrt v <= 1 / R_sqrt.sqrt u.
Proof.
  intros Hu Huv. unfold Rdiv. rewrite !Rmult_1_l.
  apply Rinv_le_contravar; [now apply sqrt_lt_R0 | now apply sqrt_le_1_alt].
Qed.

Lemma inv_sqrt_strict (u v : R) :
  0 < u -> u < v -> 1 / R_sqrt.sqrt v < 1 / R_sqrt.sqrt u.
Proof.
  intros Hu Huv. unfold Rdiv. rewrite !Rmult_1_l.
  apply Rinv_lt_contravar.
  - apply Rmult_lt_0_compat; apply sqrt_lt_R0; lra.
  - now apply sqrt_lt_1_alt; lra.
Qed.

(** The variance of a fully invested pair lies between 4/5 and 4. *)
Lemma pair_variance_bounds (a b : R) :
  0 <= a <= 1 -> 0 <= b <= 1 -> a + b = 1 ->
  4 / 5 <= a * a + 4 * (b * b) <= 4.
Proof.
  intros Ha Hb Hs. assert (Ea : a = 1 - b) by lra. subst a.
  pose proof (Rle_0_sqr (b - 1 / 5)) as Hsq. unfold Rsqr in Hsq.
  split; nra.
Qed.

(** What minimising means for [msr] on this pair of assets. *)
Lemma minimises_msr_pair (e : R) (p : problem R) (a0 b0 : R) :
  solver_problem (msr 0 [e; e] (of_rows [[1; 0]; [0; 4]])) = Some p ->
  (minimises p [a0; b0] <->
   (0 <= a0 <= 1 /\ 0 <= b0 <= 1 /\ a0 + b0 = 1) /\
   forall a b, 0 <= a <= 1 -> 0 <= b <= 1 -> a + b = 1 ->
     - e * (1 / R_sqrt.sqrt (a0 * a0 + 4 * (b0 * b0)))
     <= - e * (1 / R_sqrt.sqrt (a * a + 4 * (b * b)))).
Proof.
  intros Hp.
  assert (Hfeas : forall v, feasibleb 0 p v = true <-> weights_ok 0 2 v)
    by (intros v; apply (msr_feasible 0 0 [e; e] _ p v Hp)).
  assert (Hobj : forall v, objective p v
                           = neg_sharpe_ratio v 0 [e; e] (of_rows [[1; 0]; [0; 4]]))
    by (injection Hp as <-; reflexivity).
  unfold minimises. cbn [fzero exact]. split.
  - intros [Hf [y [Hy Hmin]]].
    apply Hfeas, exact_weights_ok_pair in Hf
      as [a' [b' [[= <- <-] [Ha [Hb Hs]]]]].
    split; [auto |]. intros a b Ha' Hb' Hs'.
    rewrite Hobj, (neg_sharpe_ratio_pair e a0 b0 Hs) in Hy. injection Hy as <-.
    apply exact_leb_iff. apply (Hmin [a; b]).
    + apply Hfeas, exact_weights_ok_pair. exists a, b. auto.
    + rewrite Hobj. now apply neg_sharpe_ratio_pair.
  - intros [[Ha [Hb Hs]] Hmin]. split.
    + apply Hfeas, exact_weights_ok_pair. exists a0, b0. auto.
    + eexists. split; [rewrite Hobj; now apply neg_sharpe_ratio_pair |].
      intros v' y' Hf' Hy'.
      apply Hfeas, exact_weights_ok_pair in Hf'
        as [a [b [-> [Ha' [Hb' Hs']]]]].
      rewrite Hobj, (neg_sharpe_ratio_pair e a b Hs') in Hy'. injection Hy' as <-.
      apply exact_leb_iff. now apply Hmin.
Qed.

End TwoAssets.


(** * Further properties of the module *)

(** ** Shapes, empty inputs and sizes *)

Section EdgeBehaviour.
Context {F : Type} {AF : Arith F}.

(** X1: [portfolio_return] returns exactly when its two vectors have the
    same length, [portfolio_vol] exactly when the covariance matrix has as
    many rows and as many columns as there are weights; the only exception
    either raises is the ValueError of the matrix product. *)
Theorem portfolio_arithmetic_raises_iff_shapes_differ
        (w er : list F) (cov : matrix F) :
  ((exists r, portfolio_return w er = Ok r) <-> length w = length er) /\
  ((exists v, portfolio_vol w cov = Ok v) <->
   length w = nrows cov /\ ncols cov = length w) /\
  (forall e, portfolio_return w er = Raise e -> e = matmul_mismatch) /\
  (forall e, portfolio_vol w cov = Raise e -> e = matmul_mismatch).
Proof.
  split; [| split; [| split]].
  - unfold portfolio_return. split.
    + intros [r Hr]. destruct (Nat.eq_dec (length w) (length er)) as [H | H];
        [exact H |]. rewrite (matmul_vv_mismatch _ _ H) in Hr. discriminate.
    + intros H. rewrite (matmul_vv_ok _ _ H). eauto.
  - split.
    + intros [v Hv].
      destruct (Nat.eq_dec (length w) (nrows cov)) as [Hr | Hr];
        [destruct (Nat.eq_dec (nrows cov) (ncols cov)) as [Hc | Hc] |].
      * split; congruence.
      * rewrite portfolio_vol_mismatch in Hv by auto. discriminate.
      * rewrite portfolio_vol_mismatch in Hv by auto. discriminate.
    + intros [Hr Hc]. destruct (quadratic_form_ok w cov Hr Hc) as [q Hq].
      unfold portfolio_vol. rewrite Hq. cbn. eauto.
  - unfold portfolio_return, matmul_vv. intros e.
    destruct (length w =? length er)%nat; [discriminate | congruence].
  - intros e.
    destruct (Nat.eq_dec (length w) (nrows cov)) as [Hr | Hr];
      [destruct (Nat.eq_dec (nrows cov) (ncols cov)) as [Hc | Hc] |].
    + destruct (quadratic_form_ok w cov Hr ltac:(congruence)) as [q Hq].
      unfold portfolio_vol. rewrite Hq. discriminate.
    + rewrite portfolio_vol_mismatch by auto. congruence.
    + rewrite portfolio_vol_mismatch by auto. congruence.
Qed.

(** X2: with no asset (an empty [er], a covariance matrix with no row) the
    three optimisers raise ZeroDivisionError, from the initial guess [1/n];
    the solver is never called, whatever it is. *)
Theorem optimisers_raise_without_assets
        (solver : problem F -> result (OptimizeResult F))
        (target_return riskfree_rate : F) (cov : matrix F) :
  run solver (minimize_vol target_return [] cov)
  = Raise (ZeroDivisionError "division by zero") /\
  invokes_solver (minimize_vol target_return [] cov) = false /\
  run solver (msr riskfree_rate [] cov)
  = Raise (ZeroDivisionError "division by zero") /\
  invokes_solver (msr riskfree_rate [] cov) = false /\
  (nrows cov = 0%nat ->
   run solver (gmv cov) = Raise (ZeroDivisionError "division by zero") /\
   invokes_solver (gmv cov) = false).
Proof.
  repeat split; try reflexivity; unfold gmv; rewrite H; reflexivity.
Qed.

Lemma length_removelast {A : Type} (l : list A) :
  length (removelast l) = Nat.pred (length l).
Proof.
  induction l as [| a [| b l] IH]; try reflexivity.
  change (removelast (a :: b :: l)) with (a :: removelast (b :: l)).
  cbn [length]. rewrite IH. reflexivity.
Qed.

Lemma np_linspace_length (start stop : F) (num : Z) (ts : list F) :
  np_linspace start stop num = Ok ts -> length ts = Z.to_nat num.
Proof.
  unfold np_linspace. destruct (num <? 0)%Z; [discriminate |].
  intros [= <-].
  set (n := Z.to_nat num).
  match goal with
  | |- context [map (fun t => (t + start)%A) ?l] => set (y := l)
  end.
  assert (Hy : length (map (fun t => (t + start)%A) y) = n).
  { rewrite length_map. subst y.
    destruct (0 <? n - 1)%nat; [destruct (_ =? fzero)%A |];
      now rewrite !length_map, length_seq. }
  destruct (1 <? n)%nat eqn:Hn; [| exact Hy].
  apply Nat.ltb_lt in Hn.
  rewrite length_app, length_removelast, Hy. cbn. lia.
Qed.

Lemma np_linspace_negative (start stop : F) (num : Z) :
  (num < 0)%Z ->
  np_linspace start stop num = Raise (ValueError (negative_samples num)).
Proof.
  intros H. unfold np_linspace. now rewrite (proj2 (Z.ltb_lt _ _) H).
Qed.

Lemma np_linspace_returns (start stop : F) (num : Z) :
  (0 <= num)%Z -> exists ts, np_linspace start stop num = Ok ts.
Proof.
  intros H. unfold np_linspace.
  rewrite (proj2 (Z.ltb_ge _ _) H). eauto.
Qed.

Lemma np_min_max_nonempty (er : list F) :
  er <> [] -> exists lo hi, np_min er = Ok lo /\ np_max er = Ok hi.
Proof.
  destruct er as [| e er]; [contradiction |]. intros _. cbn. eauto.
Qed.

Lemma pmapM_length {A B : Type} (solver : problem F -> result (OptimizeResult F))
      (f : A -> prog F B) (l : list A) :
  forall bs, run solver (pmapM f l) = Ok bs -> length bs = length l.
Proof.
  induction l as [| a l IH]; intros bs Hr.
  - injection Hr as <-. reflexivity.
  - cbn [pmapM] in Hr. rewrite run_pbind in Hr.
    destruct (run solver (f a)) as [b |]; [| discriminate].
    cbn [bind] in Hr. rewrite run_pbind in Hr.
    destruct (run solver (pmapM f l)) as [bs' |] eqn:Hbs; [| discriminate].
    injection Hr as <-. cbn. f_equal. now apply IH.
Qed.

(** X3: [optimal_weights] on degenerate inputs.  With an empty [er] it
    raises the ValueError of [er.min()], whatever [n_points] is; with a
    non-empty [er] and a negative [n_points] it raises the ValueError of
    [np.linspace]; with [n_points = 0] it returns the empty list.  In none
    of these cases is the solver called. *)
Theorem optimal_weights_degenerate_inputs
        (n_points : Z) (er : list F) (cov : matrix F) :
  (er = [] ->
   optimal_weights n_points er cov = Throw (empty_reduction "minimum")) /\
  (er <> [] -> (n_points < 0)%Z ->
   optimal_weights n_points er cov
   = Throw (ValueError (negative_samples n_points))) /\
  (er <> [] -> n_points = 0%Z -> optimal_weights n_points er cov = Ret []).
Proof.
  unfold optimal_weights. split; [| split].
  - intros ->. reflexivity.
  - intros Hne Hn. destruct (np_min_max_nonempty er Hne) as [lo [hi [Hlo Hhi]]].
    rewrite Hlo, Hhi. cbn [bind].
    rewrite (np_linspace_negative _ _ _ Hn). reflexivity.
  - intros Hne ->. destruct (np_min_max_nonempty er Hne) as [lo [hi [Hlo Hhi]]].
    rewrite Hlo, Hhi. reflexivity.
Qed.

(** X4: when [optimal_weights] returns, it returns exactly [n_points]
    weight vectors, one per target return. *)
Theorem optimal_weights_count
        (solver : problem F -> result (OptimizeResult F))
        (n_points : Z) (er : list F) (cov : matrix F) (ws : list (list F)) :
  run solver (optimal_weights n_points er cov) = Ok ws ->
  length ws = Z.to_nat n_points.
Proof.
  unfold optimal_weights. rewrite run_pbind, run_lift.
  destruct (lo <- np_min er ;; hi <- np_max er ;; np_linspace lo hi n_points)
    as [target_rs |] eqn:Ht; [| discriminate].
  cbn [bind]. intros Hr.
  rewrite (pmapM_length solver _ target_rs ws Hr).
  destruct (np_min er) as [lo |]; [| discriminate].
  destruct (np_max er) as [hi |]; [| discriminate].
  exact (np_linspace_length lo hi n_points target_rs Ht).
Qed.

Lemma mapM_returns {A B : Type} (f : A -> result B) (l : list A) :
  (forall a, In a l -> exists b, f a = Ok b) ->
  exists bs, mapM f l = Ok bs /\ length bs = length l.
Proof.
  induction l as [| a l IH]; intros Hf.
  - exists []. split; reflexivity.
  - destruct (Hf a (or_introl eq_refl)) as [b Hb].
    destruct IH as [bs [Hbs Hl]]; [intros a' Ha'; apply Hf; now right |].
    exists (b :: bs). cbn [mapM]. rewrite Hb. cbn [bind]. rewrite Hbs.
    split; [reflexivity | cbn; now rewrite Hl].
Qed.

(** On two assets with fitting shapes and at least one point [plot_ef2]
    returns its line. *)
Lemma plot_ef2_returns (n_points : Z) (er : list F) (cov : matrix F) :
  length er = 2%nat -> (1 <= n_points)%Z ->
  nrows cov = 2%nat -> ncols cov = 2%nat ->
  exists line, plot_ef2 n_points er cov = Ok line /\
    length (plot_x line) = Z.to_nat n_points /\
    length (plot_y line) = Z.to_nat n_points /\
    plot_style line = ".-"%string.
Proof.
  intros Her Hn Hr Hc. unfold plot_ef2. rewrite Her. cbn [Nat.eqb negb].
  destruct (np_linspace_returns fzero fone n_points ltac:(lia)) as [ts Hts].
  rewrite Hts. cbn [bind].
  pose proof (np_linspace_length _ _ _ _ Hts) as Hlen.
  set (weights := map (fun w => [w; (fone - w)%A]) ts).
  assert (Hw : forall w, In w weights -> length w = 2%nat).
  { intros w Hin. apply in_map_iff in Hin as [t [<- _]]. reflexivity. }
  destruct (mapM_returns (fun w => portfolio_return w er) weights)
    as [rets [Hrets Hlr]].
  { intros w Hin. unfold portfolio_return.
    rewrite matmul_vv_ok by (rewrite (Hw w Hin); congruence). eauto. }
  destruct (mapM_returns (fun w => portfolio_vol w cov) weights)
    as [vols [Hvols Hlv]].
  { intros w Hin.
    destruct (quadratic_form_ok w cov) as [q Hq];
      try (rewrite (Hw w Hin); congruence).
    unfold portfolio_vol. rewrite Hq. cbn. eauto. }
  rewrite Hrets. cbn [bind]. rewrite Hvols. cbn [bind].
  subst weights. rewrite length_map in Hlr, Hlv.
  assert (Hpos : (length rets =? 0)%nat = false)
    by (apply Nat.eqb_neq; lia).
  rewrite Hpos.
  eexists. split; [reflexivity |]. cbn [plot_x plot_y plot_style].
  repeat split; congruence.
Qed.


End EdgeBehaviour.

Section EdgeBehaviour64.
Open Scope float_scope.

Lemma optimal_weights_count_witness :
  length [[0.5; 0.5]; [0.5; 0.5]] = Z.to_nat 2.
Proof.
  apply (@optimal_weights_count float float64 (idle_solver 0x1p-20) 2 [1; 1]
           (of_rows [[1; 0]; [0; 1]]) [[0.5; 0.5]; [0.5; 0.5]]).
  vm_compute. reflexivity.
Defined.


(** The three points of that plot: asset 2 alone, the even mix, asset 1
    alone. *)
Example plot_ef2_three_points :
  plot_ef2 3 [0.5; 0.25] (of_rows [[1; 0]; [0; 4]])
  = Ok {| plot_x := [2; 0x1.1e3779b97f4a8p+0; 1];
          plot_y := [0.25; 0.375; 0.5];
          plot_style := ".-" |}.
Proof. vm_compute. reflexivity. Qed.

End EdgeBehaviour64.

(** ** Portfolios in exact arithmetic *)

Section ExactPortfolios.
Open Scope R_scope.

Lemma fold_left_Rplus_acc (l : list R) (acc : R) :
  fold_left Rplus l acc = acc + fold_left Rplus l 0.
Proof.
  revert acc. induction l as [| a l IH]; intros acc; simpl; [ring |].
  rewrite (IH (acc + a)), (IH (0 + a)). ring.
Qed.

Lemma fold_left_Rplus_le {A : Type} (f g : A -> R) (l : list A) :
  (forall i, In i l -> g i <= f i) ->
  forall acc, fold_left Rplus (map g l) acc <= fold_left Rplus (map f l) acc.
Proof.
  induction l as [| a l IH]; intros H acc; simpl; [lra |].
  rewrite (fold_left_Rplus_acc (map g l)), (fold_left_Rplus_acc (map f l)).
  pose proof (H a (or_introl eq_refl)).
  pose proof (IH (fun i Hi => H i (or_intror Hi)) 0). lra.
Qed.

Lemma exact_weights_ok_iff (n : nat) (w : list R) :
  weights_ok 0 n w <->
  length w = n /\ Forall (fun wi => 0 <= wi <= 1) w /\ fold_left Rplus w 0 = 1.
Proof.
  unfold weights_ok, np_sum. cbn [fzero fone fadd fsub fabs exact].
  rewrite exact_leb_iff.
  assert (Hb : Forall (fun wi => (0 <=? wi)%A = true /\ (wi <=? 1)%A = true) w
               <-> Forall (fun wi => 0 <= wi <= 1) w).
  { split; apply Forall_impl; intros a [H0 H1]; split;
      apply exact_leb_iff; assumption. }
  rewrite Hb.
  assert (Hs : Rabs (fold_left Rplus w 0 - 1) <= 0 <-> fold_left Rplus w 0 = 1).
  { split; intros H.
    - destruct (Req_dec (fold_left Rplus w 0 - 1) 0) as [He | Hne]; [lra |].
      apply Rabs_pos_lt in Hne. lra.
    - rewrite H. replace (1 - 1) with 0 by ring. rewrite Rabs_R0. lra. }
  rewrite Hs. reflexivity.
Qed.

Lemma exact_nan_aware (pick : R -> R -> bool) (acc b : R) :
  nan_aware pick acc b = if pick b acc then b else acc.
Proof.
  unfold nan_aware. cbn [feqb exact].
  destruct (Req_dec_T acc acc) as [_ | H]; [| contradiction].
  destruct (Req_dec_T b b) as [_ | H]; [| contradiction]. reflexivity.
Qed.

Lemma exact_ltb_iff (a b : R) : (a <? b)%A = true <-> a < b.
Proof.
  cbn [fltb exact]. destruct (Rlt_dec a b); split; intros H;
    try reflexivity; try assumption; try discriminate; contradiction.
Qed.

Lemma fold_min_lower (l : list R) (a : R) :
  fold_left (nan_aware fltb) l a <= a /\
  forall v, In v l -> fold_left (nan_aware fltb) l a <= v.
Proof.
  revert a. induction l as [| b l IH]; intros a; cbn [fold_left].
  - split; [lra | contradiction].
  - rewrite exact_nan_aware.
    destruct (b <? a)%A eqn:E;
      [apply exact_ltb_iff in E; destruct (IH b) as [H1 H2]
      | rewrite <- not_true_iff_false, exact_ltb_iff in E;
        destruct (IH a) as [H1 H2]];
      (split; [lra |]); intros v [<- | Hv]; try lra; now apply H2.
Qed.

Lemma fold_max_upper (l : list R) (a : R) :
  a <= fold_left (nan_aware (fun b acc => acc <? b)%A) l a /\
  forall v, In v l -> v <= fold_left (nan_aware (fun b acc => acc <? b)%A) l a.
Proof.
  revert a. induction l as [| b l IH]; intros a; cbn [fold_left].
  - split; [lra | contradiction].
  - rewrite exact_nan_aware.
    destruct (a <? b)%A eqn:E;
      [apply exact_ltb_iff in E; destruct (IH b) as [H1 H2]
      | rewrite <- not_true_iff_false, exact_ltb_iff in E;
        destruct (IH a) as [H1 H2]];
      (split; [lra |]); intros v [<- | Hv]; try lra; now apply H2.
Qed.

(** [er.min()] and [er.max()] bound every entry. *)
Lemma np_min_max_bound (er : list R) (lo hi : R) :
  np_min er = Ok lo -> np_max er = Ok hi ->
  forall v, In v er -> lo <= v <= hi.
Proof.
  destruct er as [| a l]; [discriminate |].
  cbn [np_min np_max]. intros [= <-] [= <-] v [<- | Hv].
  - split; [apply (proj1 (fold_min_lower l a)) | apply (proj1 (fold_max_upper l a))].
  - split; [now apply (proj2 (fold_min_lower l a)) | now apply (proj2 (fold_max_upper l a))].
Qed.

(** The return of a long-only, fully invested portfolio is an average of
    the expected returns. *)
Lemma portfolio_return_between (w er : list R) (lo hi : R) :
  weights_ok 0 (length er) w ->
  (forall v, In v er -> lo <= v <= hi) ->
  exists r, portfolio_return w er = Ok r /\ lo <= r <= hi.
Proof.
  intros Hw Hb. apply exact_weights_ok_iff in Hw as [Hl [Hpos Hs]].
  unfold portfolio_return. rewrite (matmul_vv_ok w er Hl).
  eexists. split; [reflexivity |].
  unfold sum_upto, np_sum. cbn [fzero fmul fadd exact].
  assert (Hone : fold_left Rplus (map (fun i => nth i w 0) (seq 0 (length w))) 0 = 1)
    by now rewrite map_nth_seq_id.
  assert (Hi : forall i, In i (seq 0 (length w)) ->
                         0 <= nth i w 0 <= 1 /\ lo <= nth i er 0 <= hi).
  { intros i Hin. apply in_seq in Hin. split.
    - apply (proj1 (Forall_forall _ w) Hpos), nth_In. lia.
    - apply Hb, nth_In. lia. }
  split.
  - replace lo with (lo * fold_left Rplus (map (fun i => nth i w 0) (seq 0 (length w))) 0)
      by (rewrite Hone; ring).
    rewrite <- fold_left_Rplus_scale, Rmult_0_r.
    apply fold_left_Rplus_le. intros i Hin. destruct (Hi i Hin). nra.
  - replace hi with (hi * fold_left Rplus (map (fun i => nth i w 0) (seq 0 (length w))) 0)
      by (rewrite Hone; ring).
    rewrite <- fold_left_Rplus_scale, Rmult_0_r.
    apply fold_left_Rplus_le. intros i Hin. destruct (Hi i Hin). nra.
Qed.

(** X6: in exact arithmetic the return of a portfolio whose weights lie in
    [0, 1] and sum to 1 is between the smallest and the largest expected
    return. *)
Theorem portfolio_return_within_extremes (w er : list R) (lo hi : R) :
  weights_ok 0 (length er) w ->
  np_min er = Ok lo -> np_max er = Ok hi ->
  exists r, portfolio_return w er = Ok r /\ lo <= r <= hi.
Proof.
  intros Hw Hlo Hhi.
  exact (portfolio_return_between w er lo hi Hw (np_min_max_bound er lo hi Hlo Hhi)).
Qed.

(** No valid portfolio earns less than the smallest or more than the
    largest expected return. *)
Lemma minimize_vol_no_feasible_point
      (target_return : R) (er : list R) (cov : matrix R) (lo hi : R)
      (p : problem R) :
  np_min er = Ok lo -> np_max er = Ok hi ->
  target_return < lo \/ hi < target_return ->
  solver_problem (minimize_vol target_return er cov) = Some p ->
  forall w, feasibleb 0 p w = false.
Proof.
  intros Hlo Hhi Hout Hp w.
  destruct (feasibleb 0 p w) eqn:Hf; [exfalso | reflexivity].
  apply (minimize_vol_feasible 0 target_return er cov p w Hp) in Hf
    as [Hw [r [Hr Ht]]].
  destruct (portfolio_return_between w er lo hi Hw
              (np_min_max_bound er lo hi Hlo Hhi)) as [r' [Hr' Hb]].
  rewrite Hr in Hr'. injection Hr' as <-.
  apply exact_leb_iff in Ht. cbn [fabs fsub exact] in Ht.
  assert (Hz : target_return - r = 0).
  { destruct (Req_dec (target_return - r) 0) as [He | Hne]; [exact He |].
    apply Rabs_pos_lt in Hne. lra. }
  lra.
Qed.


Lemma fold_left_Rplus_repeat (a : R) (n : nat) :
  fold_left Rplus (repeat a n) 0 = INR n * a.
Proof.
  induction n as [| n IH]; [simpl; ring |].
  cbn [repeat fold_left]. rewrite fold_left_Rplus_acc, IH, S_INR. ring.
Qed.

(** Equal weights are a valid portfolio. *)
Lemma equal_weights_ok (n : nat) :
  n <> 0%nat -> weights_ok 0 n (repeat (1 / INR n) n).
Proof.
  intros Hn. apply exact_weights_ok_iff.
  assert (Hpos : 1 <= INR n).
  { destruct n as [| n]; [contradiction |]. rewrite S_INR.
    pose proof (pos_INR n). lra. }
  split; [apply repeat_length |]. split.
  - apply Forall_forall. intros v Hv. apply repeat_spec in Hv. subst v.
    split.
    + apply Rlt_le, Rdiv_lt_0_compat; lra.
    + apply (Rmult_le_reg_r (INR n)); [lra |].
      unfold Rdiv. rewrite Rmult_assoc, Rinv_l by lra. lra.
  - rewrite fold_left_Rplus_repeat. field. lra.
Qed.

(** X8: in exact arithmetic the initial guess of both optimisers is a valid
    portfolio (weights in [0, 1] that sum to 1); for [msr] it is a feasible
    point of the problem posed. *)
Theorem initial_guess_is_valid_portfolio
        (target_return riskfree_rate : R) (er : list R) (cov : matrix R) :
  er <> [] ->
  (forall p, solver_problem (minimize_vol target_return er cov) = Some p ->
             weights_ok 0 (length er) (x0 p)) /\
  (forall p, solver_problem (msr riskfree_rate er cov) = Some p ->
             weights_ok 0 (length er) (x0 p) /\ feasibleb 0 p (x0 p) = true).
Proof.
  intros Hne.
  assert (Hn : length er <> 0%nat) by (destruct er; [contradiction | discriminate]).
  pose proof (equal_weights_ok (length er) Hn) as Hw.
  split.
  - intros p. rewrite (minimize_vol_call _ _ _ Hne). intros [= <-]. exact Hw.
  - intros p Hp. assert (Hx : weights_ok 0 (length er) (x0 p)).
    { revert Hp. rewrite (msr_call _ _ _ Hne). intros [= <-]. exact Hw. }
    split; [exact Hx |].
    now apply (msr_feasible 0 riskfree_rate er cov p (x0 p) Hp).
Qed.

End ExactPortfolios.

Section ExactPortfolioWitnesses.
Open Scope R_scope.

Lemma np_min_of_one_three : np_min [1; 3] = Ok 1.
Proof.
  cbn [np_min fold_left]. rewrite exact_nan_aware.
  destruct (3 <? 1)%A eqn:E; [apply exact_ltb_iff in E; lra | reflexivity].
Qed.

Lemma np_max_of_one_three : np_max [1; 3] = Ok 3.
Proof.
  cbn [np_max fold_left]. rewrite exact_nan_aware.
  destruct (1 <? 3)%A eqn:E; [reflexivity |].
  rewrite <- not_true_iff_false, exact_ltb_iff in E. lra.
Qed.

Lemma even_pair_ok : weights_ok 0 2 [1 / 2; 1 / 2].
Proof.
  apply exact_weights_ok_pair. exists (1 / 2), (1 / 2).
  repeat split; lra.
Qed.

Lemma portfolio_return_within_extremes_witness :
  exists r, portfolio_return [1 / 2; 1 / 2] [1; 3] = Ok r /\ 1 <= r <= 3.
Proof.
  apply (portfolio_return_within_extremes [1 / 2; 1 / 2] [1; 3] 1 3).
  - exact even_pair_ok.
  - exact np_min_of_one_three.
  - exact np_max_of_one_three.
Defined.


Lemma initial_guess_is_valid_portfolio_witness :
  (forall p, solver_problem (minimize_vol 2 [1; 3] (of_rows [[1; 0]; [0; 4]])) = Some p ->
             weights_ok 0 (length [1; 3]) (x0 p)) /\
  (forall p, solver_problem (msr 0 [1; 3] (of_rows [[1; 0]; [0; 4]])) = Some p ->
             weights_ok 0 (length [1; 3]) (x0 p) /\ feasibleb 0 p (x0 p) = true).
Proof.
  apply (initial_guess_is_valid_portfolio 2 0 [1; 3] (of_rows [[1; 0]; [0; 4]])).
  discriminate.
Defined.

End ExactPortfolioWitnesses.

(** ** What [gmv] minimises *)

Section GlobalMinimumVolatility.
Open Scope R_scope.

Lemma nth_repeat_one (n i : nat) :
  (i < n)%nat -> nth i (repeat 1 n) 0 = 1.
Proof.
  intros Hi. rewrite (nth_indep _ 0 1) by now rewrite repeat_length.
  apply nth_repeat.
Qed.

(** With unit returns the portfolio return is the sum of the weights. *)
Lemma portfolio_return_unit_returns (w : list R) (n : nat) :
  length w = n ->
  portfolio_return w (repeat 1 n) = Ok (fold_left Rplus w 0).
Proof.
  intros Hl. unfold portfolio_return.
  rewrite matmul_vv_ok by now rewrite repeat_length.
  f_equal. unfold sum_upto, np_sum. cbn [fzero fmul fadd exact].
  rewrite <- (map_nth_seq_id w 0) at 2. f_equal.
  apply map_ext_in. intros i Hi. apply in_seq in Hi.
  rewrite nth_repeat_one by lia. ring.
Qed.

Lemma neg_inverse_le (s s' : R) :
  0 < s -> 0 < s' -> (- (1 - 0) / s <= - (1 - 0) / s' <-> s <= s').
Proof.
  intros Hs Hs'. unfold Rdiv.
  replace (- (1 - 0) * / s) with (- / s) by ring.
  replace (- (1 - 0) * / s') with (- / s') by ring.
  split; intros H.
  - destruct (Rle_dec s s') as [Hle | Hgt]; [exact Hle |].
    assert (/ s < / s') by (apply Rinv_lt_contravar; [nra | lra]). lra.
  - assert (/ s' <= / s) by (apply Rinv_le_contravar; lra). lra.
Qed.

(** X9: in exact arithmetic, when the quadratic form is positive on every
    valid portfolio, the minimisers of the problem [gmv] poses are exactly
    the valid portfolios of least volatility. *)
Theorem gmv_minimises_volatility (cov : matrix R) (p : problem R) (w : list R) :
  solver_problem (gmv cov) = Some p ->
  (forall v, weights_ok 0 (nrows cov) v ->
             exists q, quadratic_form v cov = Ok q /\ 0 < q) ->
  (minimises p w <->
   weights_ok 0 (nrows cov) w /\
   exists s, portfolio_vol w cov = Ok s /\
     forall v s', weights_ok 0 (nrows cov) v -> portfolio_vol v cov = Ok s' ->
                  s <= s').
Proof.
  intros Hp Hpd. set (n := nrows cov) in *.
  assert (Hfeas : forall v, feasibleb 0 p v = true <-> weights_ok 0 n v).
  { intros v. unfold gmv in Hp.
    rewrite (msr_feasible 0 0 _ cov p v Hp), repeat_length. reflexivity. }
  assert (Hvol : forall v, weights_ok 0 n v ->
                 exists s, portfolio_vol v cov = Ok s /\ 0 < s).
  { intros v Hv. destruct (Hpd v Hv) as [q [Hq Hpos]].
    exists (R_sqrt.sqrt q). unfold portfolio_vol. rewrite Hq.
    split; [reflexivity | now apply sqrt_lt_R0]. }
  assert (Hobj : forall v s, weights_ok 0 n v -> portfolio_vol v cov = Ok s ->
                 objective p v = Ok (- (1 - 0) / s)).
  { intros v s Hv Hs. unfold gmv in Hp. cbn [fone fzero exact] in Hp. fold n in Hp.
    assert (Hne : repeat 1 n <> []).
    { intros Hnil. rewrite Hnil in Hp. discriminate. }
    rewrite (msr_call _ _ _ Hne) in Hp. injection Hp as <-.
    cbn [objective]. unfold neg_sharpe_ratio.
    apply exact_weights_ok_iff in Hv as [Hl [_ Hsum]].
    rewrite (portfolio_return_unit_returns v n Hl), Hsum, Hs. reflexivity. }
  unfold minimises. cbn [fzero exact]. split.
  - intros [Hf [y [Hy Hmin]]]. apply Hfeas in Hf.
    split; [exact Hf |].
    destruct (Hvol w Hf) as [s [Hs Hpos]]. exists s. split; [exact Hs |].
    intros v s' Hv Hs'.
    destruct (Hvol v Hv) as [s'' [Hs'' Hpos']].
    rewrite Hs' in Hs''. injection Hs'' as <-.
    rewrite (Hobj w s Hf Hs) in Hy. injection Hy as <-.
    apply (neg_inverse_le s s' Hpos Hpos'), exact_leb_iff.
    apply (Hmin v); [now apply Hfeas | now apply Hobj].
  - intros [Hf [s [Hs Hmin]]]. split; [now apply Hfeas |].
    exists (- (1 - 0) / s). split; [now apply Hobj |].
    intros v y' Hv Hy'. apply Hfeas in Hv.
    destruct (Hvol w Hf) as [s0 [Hs0 Hpos]].
    rewrite Hs in Hs0. injection Hs0 as <-.
    destruct (Hvol v Hv) as [s' [Hs' Hpos']].
    rewrite (Hobj v s' Hv Hs') in Hy'. injection Hy' as <-.
    apply exact_leb_iff, (neg_inverse_le s s' Hpos Hpos').
    now apply (Hmin v).
Qed.

Lemma quadratic_form_pair_positive (v : list R) :
  weights_ok 0 (nrows (of_rows [[1; 0]; [0; 4]])) v ->
  exists q, quadratic_form v (of_rows [[1; 0]; [0; 4]]) = Ok q /\ 0 < q.
Proof.
  intros Hv. apply exact_weights_ok_pair in Hv as [a [b [-> [Ha [Hb Hs]]]]].
  eexists. split.
  - unfold quadratic_form, matmul_vv, matmul_vm, sum_upto, np_sum, of_rows.
    cbn [length Nat.eqb nrows ncols entry hd seq map nth fold_left bind
         fzero fadd fmul exact]. reflexivity.
  - pose proof (pair_variance_bounds a b Ha Hb Hs). lra.
Qed.

Lemma gmv_minimises_volatility_witness :
  match solver_problem (gmv (of_rows [[1; 0]; [0; 4]])) with
  | Some p =>
      minimises p [4 / 5; 1 / 5] <->
      weights_ok 0 (nrows (of_rows [[1; 0]; [0; 4]])) [4 / 5; 1 / 5] /\
      exists s, portfolio_vol [4 / 5; 1 / 5] (of_rows [[1; 0]; [0; 4]]) = Ok s /\
        forall v s', weights_ok 0 (nrows (of_rows [[1; 0]; [0; 4]])) v ->
                     portfolio_vol v (of_rows [[1; 0]; [0; 4]]) = Ok s' -> s <= s'
  | None => False
  end.
Proof.
  cbn [solver_problem gmv msr pbind lift py_one_over length repeat Nat.eqb
       nrows of_rows].
  apply (gmv_minimises_volatility (of_rows [[1; 0]; [0; 4]])).
  - reflexivity.
  - exact quadratic_form_pair_positive.
Defined.

End GlobalMinimumVolatility.

(** ** Drawdown *)

Section DrawdownShape.
Context {F : Type} {AF : Arith F}.

Lemma cumprod_from_length (l : list F) :
  forall acc, length (cumprod_from acc l) = length l.
Proof.
  induction l as [| v l IH]; intros acc; cbn [cumprod_from]; [reflexivity |].
  destruct (v =? v)%A; cbn [length]; now rewrite IH.
Qed.

Lemma cummax_from_length (l : list F) :
  forall acc, length (cummax_from acc l) = length l.
Proof.
  induction l as [| v l IH]; intros acc; cbn [cummax_from]; [reflexivity |].
  destruct (v =? v)%A; cbn [length]; now rewrite IH.
Qed.

(** X10: the three columns [drawdown] returns have one row per return of
    the input series. *)
Theorem drawdown_columns_length (return_series : list F) :
  length (Wealth (drawdown return_series)) = length return_series /\
  length (Cumulative_Peaks (drawdown return_series)) = length return_series /\
  length (Percentage_Drawdown (drawdown return_series)) = length return_series.
Proof.
  unfold drawdown, cumprod, cummax.
  cbn [Wealth Cumulative_Peaks Percentage_Drawdown].
  repeat split;
    repeat first [rewrite length_map | rewrite length_combine
                 | rewrite cummax_from_length | rewrite cumprod_from_length];
    try apply Nat.min_id; reflexivity.
Qed.

End DrawdownShape.

Section DrawdownExact.
Open Scope R_scope.

Lemma exact_eqb_refl (v : R) : (v =? v)%A = true.
Proof.
  cbn [feqb exact]. destruct (Req_dec_T v v); [reflexivity | contradiction].
Qed.

Lemma cumprod_from_positive (l : list R) :
  forall acc, 0 < acc -> Forall (fun v => 0 < v) l ->
              Forall (fun v => 0 < v) (cumprod_from acc l).
Proof.
  induction l as [| v l IH]; intros acc Hacc Hl; cbn [cumprod_from];
    [constructor |].
  rewrite exact_eqb_refl. inversion Hl as [| ? ? Hv Hl']; subst.
  assert (0 < acc * v) by now apply Rmult_lt_0_compat.
  constructor; [assumption | now apply IH].
Qed.

(** The running maximum dominates the series, stays above the maximum it
    started from, and never decreases. *)
Lemma cummax_from_spec (l : list R) :
  forall acc,
    Forall2 Rle l (cummax_from acc l) /\
    (forall a, acc = Some a -> Forall (Rle a) (cummax_from acc l)) /\
    Sorted Rle (cummax_from acc l).
Proof.
  induction l as [| v l IH]; intros acc; cbn [cummax_from].
  - repeat split; constructor.
  - rewrite exact_eqb_refl.
    set (m := match acc with
              | Some a => if (a <? v)%A then v else a
              | None => v
              end).
    assert (Hv : v <= m).
    { subst m. destruct acc as [a |]; [| lra].
      destruct (a <? v)%A eqn:E; [lra |].
      rewrite <- not_true_iff_false, exact_ltb_iff in E. lra. }
    assert (Ha : forall a, acc = Some a -> a <= m).
    { intros a ->. subst m. destruct (a <? v)%A eqn:E; [| lra].
      apply exact_ltb_iff in E. lra. }
    destruct (IH (Some m)) as [H1 [H2 H3]].
    specialize (H2 m eq_refl).
    split; [| split].
    + constructor; assumption.
    + intros a Hacc. constructor; [now apply Ha |].
      eapply Forall_impl; [| exact H2]. intros z Hz. cbn in Hz.
      specialize (Ha a Hacc). lra.
    + constructor; [exact H3 |].
      destruct (cummax_from (Some m) l) as [| z zs]; constructor.
      now inversion H2.
Qed.

(** X11: in exact arithmetic the running peak is never below the wealth
    index and never decreases. *)
Theorem drawdown_peaks_dominate (return_series : list R) :
  Forall2 Rle (Wealth (drawdown return_series))
          (Cumulative_Peaks (drawdown return_series)) /\
  Sorted Rle (Cumulative_Peaks (drawdown return_series)).
Proof.
  unfold drawdown, cummax. cbn [Wealth Cumulative_Peaks].
  split; apply cummax_from_spec.
Qed.

Lemma Forall2_combine_map {A B C : Type} (P : A -> B -> Prop) (Q : C -> Prop)
      (f : A * B -> C) (l : list A) (l' : list B) :
  (forall a b, P a b -> Q (f (a, b))) ->
  Forall2 P l l' -> Forall Q (map f (combine l l')).
Proof.
  intros Hf H. induction H as [| a b l l' Hab _ IH]; cbn; constructor; auto.
Qed.

Lemma Forall2_strengthen_left {A B : Type} (P : A -> B -> Prop) (Q : A -> Prop)
      (l : list A) (l' : list B) :
  Forall Q l -> Forall2 P l l' -> Forall2 (fun a b => Q a /\ P a b) l l'.
Proof.
  intros HQ H. induction H as [| a b l l' Hab _ IH]; [constructor |].
  inversion HQ; subst. constructor; auto.
Qed.

(** X12: in exact arithmetic, when every return is above -100%, the wealth
    index is positive and every drawdown lies in (-1, 0]. *)
Theorem drawdown_range (return_series : list R) :
  Forall (fun r => -1 < r) return_series ->
  Forall (fun w => 0 < w) (Wealth (drawdown return_series)) /\
  Forall (fun d => -1 < d <= 0) (Percentage_Drawdown (drawdown return_series)).
Proof.
  intros Hr. unfold drawdown, cumprod, cummax.
  cbn [Wealth Percentage_Drawdown].
  set (wealth := map _ (cumprod_from _ _)).
  assert (Hw : Forall (fun w => 0 < w) wealth).
  { subst wealth. apply Forall_map.
    eapply Forall_impl;
      [| apply (cumprod_from_positive _ 1); [cbn; lra | apply Forall_map]].
    - intros v Hv. cbn [of_nat fmul exact].
      apply Rmult_lt_0_compat; [apply lt_0_INR; lia | exact Hv].
    - eapply Forall_impl; [| exact Hr]. intros r Hr1. cbn. lra. }
  split; [exact Hw |].
  apply (Forall2_combine_map (fun w p => 0 < w /\ w <= p)).
  - intros w p [Hpos Hle]. cbn [fst snd fsub fdiv exact].
    assert (Hinv : 0 < / p) by (apply Rinv_0_lt_compat; lra).
    assert (Hone : p * / p = 1) by (apply Rinv_r; lra).
    unfold Rdiv. split; nra.
  - apply Forall2_strengthen_left; [exact Hw | apply cummax_from_spec].
Qed.

Lemma drawdown_range_witness :
  Forall (fun w => 0 < w) (Wealth (drawdown [1 / 10; - (1 / 5)])) /\
  Forall (fun d => -1 < d <= 0) (Percentage_Drawdown (drawdown [1 / 10; - (1 / 5)])).
Proof.
  apply (drawdown_range [1 / 10; - (1 / 5)]).
  repeat constructor; lra.
Defined.

End DrawdownExact.

(** ** Historic VaR and CVaR in exact arithmetic *)

Section SortingFacts.
Context {F : Type} {AF : Arith F}.

Lemma insert_sorted_perm (v : F) (l : list F) :
  Permutation (insert_sorted v l) (v :: l).
Proof.
  induction l as [| y l IH]; cbn [insert_sorted]; [reflexivity |].
  destruct (_ || _); [reflexivity |].
  rewrite IH. apply perm_swap.
Qed.

(** [np.sort] rearranges its input. *)
Lemma np_sort_perm (l : list F) : Permutation (np_sort l) l.
Proof.
  unfold np_sort. induction l as [| a l IH]; cbn [fold_right]; [reflexivity |].
  rewrite insert_sorted_perm. now constructor.
Qed.

Lemma filter_all {A : Type} (f : A -> bool) (l : list A) :
  (forall a, In a l -> f a = true) -> filter f l = l.
Proof.
  induction l as [| a l IH]; intros H; cbn [filter]; [reflexivity |].
  rewrite (H a (or_introl eq_refl)). f_equal. apply IH. intros b Hb. apply H. now right.
Qed.

Lemma filter_none {A : Type} (f : A -> bool) (l : list A) :
  (forall a, In a l -> f a = false) -> filter f l = [].
Proof.
  induction l as [| a l IH]; intros H; cbn [filter]; [reflexivity |].
  rewrite (H a (or_introl eq_refl)). apply IH. intros b Hb. apply H. now right.
Qed.

End SortingFacts.

Section HistoricExact.
Open Scope R_scope.

Lemma insert_sorted_sorted (v : R) (l : list R) :
  StronglySorted Rle l -> StronglySorted Rle (insert_sorted v l).
Proof.
  induction l as [| y l IH]; intros Hs; cbn [insert_sorted].
  - repeat constructor.
  - inversion Hs as [| ? ? Hl Hy]; subst.
    rewrite exact_eqb_refl. cbn [negb]. rewrite orb_false_r.
    destruct (v <=? y)%A eqn:E.
    + apply exact_leb_iff in E. constructor; [exact Hs |].
      constructor; [exact E |].
      eapply Forall_impl; [| exact Hy]. intros z Hz. cbn in Hz. lra.
    + rewrite <- not_true_iff_false, exact_leb_iff in E.
      constructor; [now apply IH |].
      apply (Permutation_Forall (Permutation_sym (insert_sorted_perm v l))).
      constructor; [lra | exact Hy].
Qed.

Lemma np_sort_sorted (l : list R) : StronglySorted Rle (np_sort l).
Proof.
  unfold np_sort. induction l as [| a l IH]; cbn [fold_right];
    [constructor | now apply insert_sorted_sorted].
Qed.

Lemma sorted_nth_le (l : list R) :
  StronglySorted Rle l ->
  forall i j, (i <= j)%nat -> (j < length l)%nat -> nth i l 0 <= nth j l 0.
Proof.
  induction 1 as [| a l Hs IH Ha]; intros i j Hij Hj; [cbn in Hj; lia |].
  destruct i as [| i], j as [| j]; cbn [nth]; try lia; try lra.
  - apply (proj1 (Forall_forall _ l) Ha), nth_In. cbn in Hj. lia.
  - apply IH; [lia | cbn in Hj; lia].
Qed.

(** The largest index below [vi]. *)
Lemma floor_index_spec (vi : R) (k : nat) :
  0 <= vi -> vi < INR (S k) ->
  (floor_index vi k <= k)%nat /\
  INR (floor_index vi k) <= vi < INR (S (floor_index vi k)).
Proof.
  intros H0. induction k as [| k IH]; intros Hk; cbn [floor_index].
  - split; [lia |]. cbn [INR] in *. lra.
  - destruct (of_nat (S k) <=? vi)%A eqn:E.
    + apply exact_leb_iff in E. cbn [of_nat exact] in E.
      split; [lia | split; assumption].
    + rewrite <- not_true_iff_false, exact_leb_iff in E. cbn [of_nat exact] in E.
      destruct IH as [Hle Hb]; [lra |]. split; [lia | exact Hb].
Qed.

Lemma lerp_between (a b t : R) :
  a <= b -> 0 <= t <= 1 -> a <= lerp a b t <= b.
Proof.
  intros Hab Ht. unfold lerp. cbn [fone fadd fsub fmul exact].
  destruct (_ <=? t)%A; nra.
Qed.

(** A percentile lies between the smallest and the largest observation. *)
Lemma np_percentile_between (a : list R) (q : R) :
  a <> [] -> 0 <= q <= 100 ->
  exists p lo hi,
    np_percentile a q = Ok p /\ In lo a /\ In hi a /\
    (forall z, In z a -> lo <= z <= hi) /\ lo <= p <= hi.
Proof.
  intros Hne Hq. unfold np_percentile.
  assert (H100 : @of_nat R exact 100 = 100).
  { cbn [of_nat exact]. rewrite INR_IZR_INZ. reflexivity. }
  rewrite H100. cbn [fzero fone fdiv exact].
  assert (Hlo : @fleb R exact 0 (q / 100) = true) by (apply exact_leb_iff; lra).
  assert (Hhi : @fleb R exact (q / 100) 1 = true) by (apply exact_leb_iff; lra).
  rewrite Hlo, Hhi. cbn [andb negb].
  pose proof (np_sort_perm a) as Hperm.
  pose proof (np_sort_sorted a) as Hsort.
  set (arr := np_sort a) in *.
  assert (Hlen : (0 < length arr)%nat).
  { rewrite (Permutation_length Hperm). destruct a; [contradiction | cbn; lia]. }
  destruct arr as [| s0 rest] eqn:Harr; [cbn in Hlen; lia |].
  rewrite <- Harr in *. clear Harr s0 rest.
  set (n := length arr) in *.
  rewrite exact_eqb_refl. cbn [negb].
  cbn [fmul fsub of_nat exact].
  set (vi := INR (n - 1) * (q / 100)).
  assert (Hvi : 0 <= vi <= INR (n - 1)).
  { subst vi. pose proof (pos_INR (n - 1)). split; nra. }
  destruct (floor_index_spec vi (n - 1)) as [Hpk [Hp1 Hp2]];
    [lra | rewrite S_INR; lra |].
  set (previous := floor_index vi (n - 1)) in *.
  set (next := Nat.min (previous + 1) (n - 1)).
  rewrite S_INR in Hp2.
  assert (Hbetween : nth previous arr 0 <= nth next arr 0)
    by (apply sorted_nth_le; [exact Hsort | subst next; lia | subst next n; lia]).
  pose proof (lerp_between (nth previous arr 0) (nth next arr 0)
                (vi - INR previous) Hbetween ltac:(lra)) as Hl.
  exists (lerp (nth previous arr 0) (nth next arr 0) (vi - INR previous)),
    (nth 0 arr 0), (nth (n - 1) arr 0).
  split; [reflexivity |].
  split; [apply (Permutation_in _ Hperm), nth_In; lia |].
  split; [apply (Permutation_in _ Hperm), nth_In; subst n; lia |].
  split.
  - intros z Hz. apply (Permutation_in _ (Permutation_sym Hperm)) in Hz.
    destruct (In_nth arr z 0 Hz) as [k [Hk <-]].
    split; apply sorted_nth_le; try exact Hsort; subst n; lia.
  - assert (nth 0 arr 0 <= nth previous arr 0)
      by (apply sorted_nth_le; [exact Hsort | lia | subst n; lia]).
    assert (nth next arr 0 <= nth (n - 1) arr 0)
      by (apply sorted_nth_le; [exact Hsort | subst next; lia | subst n; lia]).
    lra.
Qed.

Lemma fold_left_Rplus_bounds (l : list R) (lo hi : R) :
  (forall z, In z l -> lo <= z <= hi) ->
  INR (length l) * lo <= fold_left Rplus l 0 <= INR (length l) * hi.
Proof.
  induction l as [| a l IH]; intros H.
  - cbn. lra.
  - cbn [fold_left]. rewrite fold_left_Rplus_acc.
    change (length (a :: l)) with (S (length l)). rewrite S_INR.
    pose proof (H a (or_introl eq_refl)).
    pose proof (IH (fun z Hz => H z (or_intror Hz))). lra.
Qed.

(** The mean of a non-empty Series lies between any bounds of its values. *)
Lemma series_mean_between (l : list R) (lo hi : R) :
  l <> [] -> (forall z, In z l -> lo <= z <= hi) ->
  lo <= series_mean l <= hi.
Proof.
  intros Hne H. unfold series_mean.
  rewrite (filter_all _ l) by (intros; apply exact_eqb_refl).
  unfold np_sum. cbn [fzero fadd fdiv of_nat exact].
  pose proof (fold_left_Rplus_bounds l lo hi H) as Hb.
  assert (Hn : 0 < INR (length l)).
  { apply lt_0_INR. destruct l; [contradiction | cbn; lia]. }
  assert (Hinv : 0 < / INR (length l)) by now apply Rinv_0_lt_compat.
  destruct Hb as [Hb1 Hb2]. unfold Rdiv. split.
  - replace lo with (INR (length l) * lo * / INR (length l)) by (field; lra).
    apply Rmult_le_compat_r; lra.
  - replace hi with (INR (length l) * hi * / INR (length l)) by (field; lra).
    apply Rmult_le_compat_r; lra.
Qed.

(** What the two risk measures return on a Series, and how they compare. *)
Lemma historic_measures_on_series (r : list R) (level : R) :
  r <> [] -> 0 <= level <= 100 ->
  exists v c lo hi,
    var_historic (PySeries r) level = Ok (Scalar v) /\
    cvar_historic (PySeries r) level = Ok (Scalar c) /\
    In lo r /\ In hi r /\ (forall z, In z r -> lo <= z <= hi) /\
    - hi <= v /\ v <= c /\ c <= - lo.
Proof.
  intros Hne Hlevel.
  destruct (np_percentile_between r level Hne Hlevel)
    as [p [lo [hi [Hp [Hlo [Hhi [Hall Hb]]]]]]].
  cbn [var_historic cvar_historic].
  unfold cvar_historic_series, var_historic_series. rewrite Hp.
  cbn [fmap bind fneg exact].
  set (beyond_var := filter (fun ri => @fleb R exact ri (- - p)) r).
  assert (Hin : In lo beyond_var).
  { apply filter_In. split; [exact Hlo |]. apply exact_leb_iff. lra. }
  assert (Hsel : forall z, In z beyond_var -> lo <= z <= p).
  { intros z Hz. apply filter_In in Hz as [Hz Hle].
    apply exact_leb_iff in Hle. destruct (Hall z Hz). lra. }
  assert (Hmean : lo <= series_mean beyond_var <= p).
  { apply series_mean_between; [| exact Hsel].
    intros Hnil. rewrite Hnil in Hin. contradiction. }
  exists (- p), (- series_mean beyond_var), lo, hi.
  repeat split; try assumption; try reflexivity; try (apply Hall; assumption); lra.
Qed.

(** X13: in exact arithmetic, on a non-empty Series and for a level in
    [0, 100], [var_historic] returns a value between the negated largest and
    the negated smallest observation. *)
Theorem var_historic_within_observations (r : list R) (level : R) :
  r <> [] -> 0 <= level <= 100 ->
  exists v lo hi,
    var_historic (PySeries r) level = Ok (Scalar v) /\
    In lo r /\ In hi r /\ (forall z, In z r -> lo <= z <= hi) /\
    - hi <= v <= - lo.
Proof.
  intros Hne Hlevel.
  destruct (historic_measures_on_series r level Hne Hlevel)
    as [v [c [lo [hi [Hv [Hc [Hlo [Hhi [Hall [H1 [H2 H3]]]]]]]]]]].
  exists v, lo, hi. repeat split; try assumption; try (apply Hall; assumption); lra.
Qed.

(** X14: in exact arithmetic, on a non-empty Series and for a level in
    [0, 100], both measures return, and the conditional VaR is at least the
    VaR and at most the worst loss (the negated smallest observation). *)
Theorem cvar_historic_at_least_var (r : list R) (level : R) :
  r <> [] -> 0 <= level <= 100 ->
  exists v c lo,
    var_historic (PySeries r) level = Ok (Scalar v) /\
    cvar_historic (PySeries r) level = Ok (Scalar c) /\
    In lo r /\ (forall z, In z r -> lo <= z) /\
    v <= c <= - lo.
Proof.
  intros Hne Hlevel.
  destruct (historic_measures_on_series r level Hne Hlevel)
    as [v [c [lo [hi [Hv [Hc [Hlo [Hhi [Hall [H1 [H2 H3]]]]]]]]]]].
  exists v, c, lo. repeat split; try assumption; apply Hall; assumption.
Qed.

Lemma var_historic_within_observations_witness :
  exists v lo hi,
    var_historic (PySeries [1 / 10; - (1 / 5); 3 / 100]) 5 = Ok (Scalar v) /\
    In lo [1 / 10; - (1 / 5); 3 / 100] /\ In hi [1 / 10; - (1 / 5); 3 / 100] /\
    (forall z, In z [1 / 10; - (1 / 5); 3 / 100] -> lo <= z <= hi) /\
    - hi <= v <= - lo.
Proof.
  apply (var_historic_within_observations [1 / 10; - (1 / 5); 3 / 100] 5).
  - discriminate.
  - lra.
Defined.

Lemma cvar_historic_at_least_var_witness :
  exists v c lo,
    var_historic (PySeries [1 / 10; - (1 / 5); 3 / 100]) 5 = Ok (Scalar v) /\
    cvar_historic (PySeries [1 / 10; - (1 / 5); 3 / 100]) 5 = Ok (Scalar c) /\
    In lo [1 / 10; - (1 / 5); 3 / 100] /\
    (forall z, In z [1 / 10; - (1 / 5); 3 / 100] -> lo <= z) /\
    v <= c <= - lo.
Proof.
  apply (cvar_historic_at_least_var [1 / 10; - (1 / 5); 3 / 100] 5).
  - discriminate.
  - lra.
Defined.

End HistoricExact.

(** ** Semi-deviation on binary64 *)

Section SemiDeviation64.
Open Scope float_scope.

(** X15: on binary64 the semi-deviation of a Series is never negative: it
    is NaN or at least zero, and it is NaN when no return is negative. *)
Theorem semi_deviation_nan_or_nonneg (r : list float) :
  (is_nan (semi_deviation r) = true \/ (0 <=? semi_deviation r) = true) /\
  ((forall ri, In ri r -> (ri <? 0) = false) ->
   is_nan (semi_deviation r) = true).
Proof.
  unfold semi_deviation, series_std0. split.
  - cbn [fsqrt float64]. apply sqrt_nan_or_nonneg.
  - intros Hr. rewrite (filter_none _ r) by exact Hr. reflexivity.
Qed.

Lemma semi_deviation_nan_or_nonneg_witness :
  is_nan (semi_deviation [0.5; 0.25; 0]) = true.
Proof.
  apply (proj2 (semi_deviation_nan_or_nonneg [0.5; 0.25; 0])).
  intros ri [<- | [<- | [<- | []]]]; reflexivity.
Defined.

(** Two losses of 25% and 75% around their mean of 50%. *)
Example semi_deviation_two_losses :
  semi_deviation [0.5; -0.25; 1; -0.75] = 0.25.
Proof. vm_compute. reflexivity. Qed.

End SemiDeviation64.

(** ** The ends of the two-asset frontier *)

Section FrontierEnds.
Open Scope R_scope.

Lemma removelast_app_last (a : R) (l : list R) (b : R) :
  l <> [] -> removelast (a :: l) ++ [b] = a :: (removelast l ++ [b]).
Proof.
  intros Hne. destruct l as [| c l]; [contradiction | reflexivity].
Qed.

(** From 0 to 1 in at least two samples: the first is 0, the last is 1. *)
Lemma np_linspace_unit_ends (num : Z) :
  (2 <= num)%Z ->
  exists mid, np_linspace (0 : R) 1 num = Ok (0 :: mid ++ [1]).
Proof.
  intros Hn. unfold np_linspace.
  rewrite (proj2 (Z.ltb_ge num 0)) by lia.
  assert (Hnum : exists k, Z.to_nat num = S (S k)).
  { exists (Z.to_nat num - 2)%nat. lia. }
  destruct Hnum as [k ->].
  replace (1 <? S (S k))%nat with true by reflexivity.
  change (seq 0 (S (S k))) with (0%nat :: seq 1 (S k)).
  match goal with
  | |- context [map (fun t => (t + 0)%A) ?b] => set (body := b)
  end.
  assert (Hbody : exists h : R -> R,
             body = map h (map of_nat (0%nat :: seq 1 (S k))) /\ h 0 = 0).
  { subst body.
    destruct (0 <? S (S k) - 1)%nat; [destruct (_ =? fzero)%A |];
      eexists; (split; [reflexivity |]);
      cbn [fmul fdiv fsub fzero fone exact]; unfold Rdiv; ring. }
  destruct Hbody as [h [-> Hh]].
  cbn [map seq of_nat exact INR]. rewrite Hh.
  rewrite removelast_app_last by discriminate.
  eexists. f_equal. f_equal. cbn [fadd exact]. ring.
Qed.

Lemma mapM_ends {A B : Type} (f : A -> result B) (a b : A) (mid : list A)
      (bs : list B) :
  mapM f (a :: mid ++ [b]) = Ok bs ->
  exists ra rb rmid, bs = ra :: rmid ++ [rb] /\ f a = Ok ra /\ f b = Ok rb.
Proof.
  cbn [mapM]. destruct (f a) as [ra |]; [| discriminate]. cbn [bind].
  destruct (mapM f (mid ++ [b])) as [rest |] eqn:Hrest; [| discriminate].
  intros [= <-].
  assert (H : exists rb rmid, rest = rmid ++ [rb] /\ f b = Ok rb).
  { clear ra. revert rest Hrest.
    induction mid as [| m mid IH]; intros rest Hrest; cbn [app mapM] in Hrest.
    - destruct (f b) as [rb |]; [| discriminate]. injection Hrest as <-.
      exists rb, []. split; reflexivity.
    - destruct (f m) as [rm |]; [| discriminate]. cbn [bind] in Hrest.
      destruct (mapM f (mid ++ [b])) as [rest' |]; [| discriminate].
      injection Hrest as <-.
      destruct (IH rest' eq_refl) as [rb [rmid [-> Hb]]].
      exists rb, (rm :: rmid). split; [reflexivity | exact Hb]. }
  destruct H as [rb [rmid [-> Hb]]]. exists ra, rb, rmid. auto.
Qed.

(** X16: in exact arithmetic, with at least two points on two assets and a
    2x2 covariance matrix, the line [plot_ef2] draws starts at the second
    asset alone (its expected return, the square root of its variance) and
    ends at the first asset alone. *)
Theorem plot_ef2_ends_at_single_assets
        (n_points : Z) (e0 e1 : R) (cov : matrix R) :
  (2 <= n_points)%Z -> nrows cov = 2%nat -> ncols cov = 2%nat ->
  exists line, plot_ef2 n_points [e0; e1] cov = Ok line /\
    hd 0 (plot_y line) = e1 /\ last (plot_y line) 0 = e0 /\
    hd 0 (plot_x line) = R_sqrt.sqrt (entry cov 1 1) /\
    last (plot_x line) 0 = R_sqrt.sqrt (entry cov 0 0).
Proof.
  intros Hn Hr Hc.
  destruct (plot_ef2_returns n_points [e0; e1] cov eq_refl ltac:(lia) Hr Hc)
    as [line [Hline _]].
  exists line. split; [exact Hline |].
  revert Hline. unfold plot_ef2. cbn [length Nat.eqb negb].
  destruct (np_linspace_unit_ends n_points Hn) as [mid Hts].
  cbn [fzero fone exact]. rewrite Hts. cbn [bind].
  rewrite map_cons, map_app. cbn [map].
  destruct (mapM _ _) as [rets |] eqn:Hrets; [| discriminate]. cbn [bind].
  destruct (mapM (fun w => portfolio_vol w cov) _) as [vols |] eqn:Hvols;
    [| discriminate].
  cbn [bind].
  apply mapM_ends in Hrets as [ra [rb [rmid [-> [Ha Hb]]]]].
  apply mapM_ends in Hvols as [va [vb [vmid [-> [Hva Hvb]]]]].
  cbn [length Nat.eqb]. intros [= <-]. cbn [plot_x plot_y].
  cbn [hd]. rewrite !app_comm_cons, !last_last.
  unfold portfolio_return, matmul_vv, sum_upto, np_sum in Ha, Hb.
  cbn [length Nat.eqb seq map nth fold_left fzero fone fadd fsub fmul exact]
    in Ha, Hb.
  injection Ha as <-. injection Hb as <-.
  unfold portfolio_vol, quadratic_form, matmul_vv, matmul_vm, sum_upto, np_sum
    in Hva, Hvb.
  rewrite Hr, Hc in Hva, Hvb.
  cbn [length Nat.eqb seq map nth fold_left bind
       fzero fone fadd fsub fmul fsqrt exact] in Hva, Hvb.
  injection Hva as <-. injection Hvb as <-.
  repeat split; try ring; f_equal; ring.
Qed.

Lemma plot_ef2_ends_at_single_assets_witness :
  exists line, plot_ef2 3 [1; 3] (of_rows [[1; 0]; [0; 4]]) = Ok line /\
    hd 0 (plot_y line) = 3 /\ last (plot_y line) 0 = 1 /\
    hd 0 (plot_x line) = R_sqrt.sqrt (entry (of_rows [[1; 0]; [0; 4]]) 1 1) /\
    last (plot_x line) 0 = R_sqrt.sqrt (entry (of_rows [[1; 0]; [0; 4]]) 0 0).
Proof.
  apply (plot_ef2_ends_at_single_assets 3 1 3 (of_rows [[1; 0]; [0; 4]]));
    [lia | reflexivity | reflexivity].
Defined.

End FrontierEnds.

(** ** Skewness, kurtosis and the Cornish-Fisher VaR in exact arithmetic *)

Section MomentsExact.
Open Scope R_scope.

Lemma series_mean_exact (l : list R) :
  series_mean l = fold_left Rplus l 0 / INR (length l).
Proof.
  unfold series_mean, np_sum.
  rewrite (filter_all _ l) by (intros; apply exact_eqb_refl).
  reflexivity.
Qed.

Lemma series_std0_exact (l : list R) :
  series_std0 l =
  R_sqrt.sqrt (fold_left Rplus
                 (map (fun v => (series_mean l - v) * (series_mean l - v)) l) 0
               / INR (length l)).
Proof.
  unfold series_std0. rewrite series_mean_exact. unfold np_sum.
  rewrite (filter_all _ l) by (intros; apply exact_eqb_refl).
  reflexivity.
Qed.

Lemma fold_left_Rplus_opp (l : list R) :
  fold_left Rplus (map Ropp l) 0 = - fold_left Rplus l 0.
Proof.
  rewrite (map_ext Ropp (fun v => -1 * v)) by (intros; ring).
  rewrite <- (Rmult_0_r (-1)) at 1.
  rewrite <- (map_id l) at 2.
  rewrite (fold_left_Rplus_scale (-1) (fun v => v) l 0). ring.
Qed.

Lemma fold_left_Rplus_shift (c : R) (l : list R) :
  fold_left Rplus (map (fun v => v + c) l) 0
  = fold_left Rplus l 0 + INR (length l) * c.
Proof.
  induction l as [| a l IH]; [cbn; ring |].
  cbn [map fold_left]. rewrite fold_left_Rplus_acc, IH.
  rewrite (fold_left_Rplus_acc l (0 + a)).
  change (length (a :: l)) with (S (length l)). rewrite S_INR. ring.
Qed.

Lemma series_mean_opp (l : list R) :
  series_mean (map Ropp l) = - series_mean l.
Proof.
  rewrite !series_mean_exact, fold_left_Rplus_opp, length_map.
  unfold Rdiv. ring.
Qed.

Lemma series_mean_shift (c : R) (l : list R) :
  l <> [] -> series_mean (map (fun v => v + c) l) = series_mean l + c.
Proof.
  intros Hne. rewrite !series_mean_exact, fold_left_Rplus_shift, length_map.
  assert (0 < INR (length l)).
  { apply lt_0_INR. destruct l; [contradiction | cbn; lia]. }
  field. lra.
Qed.

Lemma series_std0_opp (l : list R) :
  series_std0 (map Ropp l) = series_std0 l.
Proof.
  rewrite !series_std0_exact, series_mean_opp, length_map, map_map.
  do 3 f_equal. apply map_ext. intros v. ring.
Qed.

Lemma series_std0_shift (c : R) (l : list R) :
  series_std0 (map (fun v => v + c) l) = series_std0 l.
Proof.
  destruct l as [| a l]; [reflexivity |].
  rewrite !series_std0_exact, series_mean_shift by discriminate.
  rewrite length_map, map_map.
  do 3 f_equal. apply map_ext. intros v. ring.
Qed.

(** X17: in exact arithmetic, changing the sign of every return changes
    the sign of the skewness and leaves the kurtosis unchanged. *)
Theorem moments_of_negated_returns (returns : list R) :
  skewness pow (map Ropp returns) = - skewness pow returns /\
  kurtosis pow (map Ropp returns) = kurtosis pow returns.
Proof.
  unfold skewness, kurtosis. cbn [fsub fdiv exact].
  rewrite series_std0_opp, series_mean_opp, !map_map.
  split.
  - rewrite (map_ext (fun v => (- v - - series_mean returns) ^ 3)
                     (fun v => - ((v - series_mean returns) ^ 3)))
      by (intros; ring).
    rewrite <- (map_map (fun v => (v - series_mean returns) ^ 3) Ropp).
    rewrite series_mean_opp. unfold Rdiv. ring.
  - rewrite (map_ext (fun v => (- v - - series_mean returns) ^ 4)
                     (fun v => (v - series_mean returns) ^ 4))
      by (intros; ring).
    reflexivity.
Qed.

(** X18: in exact arithmetic, adding the same constant to every return
    leaves the skewness and the kurtosis unchanged. *)
Theorem moments_of_shifted_returns (c : R) (returns : list R) :
  skewness pow (map (fun v => v + c) returns) = skewness pow returns /\
  kurtosis pow (map (fun v => v + c) returns) = kurtosis pow returns.
Proof.
  destruct returns as [| a l]; [split; reflexivity |].
  set (returns := a :: l).
  unfold skewness, kurtosis. cbn [fsub fdiv exact].
  rewrite series_std0_shift, series_mean_shift by discriminate.
  rewrite !map_map.
  split; do 2 f_equal; apply map_ext; intros v; f_equal; ring.
Qed.

(** X19: in exact arithmetic, for a Series of skewness 0 and kurtosis 3 the
    Cornish-Fisher modification changes nothing: the modified VaR is the
    Gaussian VaR, whatever the quantile function is. *)
Theorem var_gaussian_modification_vanishes
        (norm_ppf : R -> R) (r : list R) (level : R) :
  skewness pow r = 0 -> kurtosis pow r = 3 ->
  var_gaussian pow norm_ppf r level true = var_gaussian pow norm_ppf r level false.
Proof.
  intros Hs Hk. unfold var_gaussian. rewrite Hs, Hk.
  cbn [fone fadd fsub fmul fdiv fneg of_nat exact INR].
  f_equal. f_equal. f_equal. unfold Rdiv. ring.
Qed.

End MomentsExact.

Section MomentsWitness.
Open Scope R_scope.

(** A symmetric sample with kurtosis 3: one loss and one gain of 1 among
    six observations. *)
Lemma symmetric_sample_mean : series_mean [-1; 0; 0; 0; 0; 1] = 0.
Proof.
  rewrite series_mean_exact. cbn [fold_left length INR]. field.
Qed.

Lemma symmetric_sample_std : series_std0 [-1; 0; 0; 0; 0; 1] = R_sqrt.sqrt (1 / 3).
Proof.
  rewrite series_std0_exact, symmetric_sample_mean. f_equal.
  cbn [map fold_left length INR]. field.
Qed.

Lemma symmetric_sample_skewness : skewness pow [-1; 0; 0; 0; 0; 1] = 0.
Proof.
  unfold skewness. rewrite symmetric_sample_mean.
  cbn [map fsub fdiv exact]. rewrite series_mean_exact.
  cbn [fold_left length INR]. unfold Rdiv. ring.
Qed.

Lemma symmetric_sample_kurtosis : kurtosis pow [-1; 0; 0; 0; 0; 1] = 3.
Proof.
  unfold kurtosis. rewrite symmetric_sample_mean, symmetric_sample_std.
  cbn [map fsub fdiv exact]. rewrite series_mean_exact.
  cbn [fold_left length INR].
  replace (R_sqrt.sqrt (1 / 3) ^ 4)
    with (R_sqrt.sqrt (1 / 3) * R_sqrt.sqrt (1 / 3)
          * (R_sqrt.sqrt (1 / 3) * R_sqrt.sqrt (1 / 3))) by ring.
  rewrite sqrt_sqrt by lra. field.
Qed.

Lemma var_gaussian_modification_vanishes_witness :
  var_gaussian pow (fun q => q) [-1; 0; 0; 0; 0; 1] 5 true
  = var_gaussian pow (fun q => q) [-1; 0; 0; 0; 0; 1] 5 false.
Proof.
  apply (var_gaussian_modification_vanishes (fun q => q) [-1; 0; 0; 0; 0; 1] 5).
  - exact symmetric_sample_skewness.
  - exact symmetric_sample_kurtosis.
Defined.

End MomentsWitness.

Section EdgeWitnesses64.
Open Scope float_scope.

Lemma optimisers_raise_without_assets_witness :
  run (idle_solver 0x1p-20) (gmv (of_rows []))
  = Raise (ZeroDivisionError "division by zero") /\
  invokes_solver (gmv (@of_rows float float64 [])) = false.
Proof.
  apply (@optimisers_raise_without_assets float float64 (idle_solver 0x1p-20)
           0 0 (of_rows [])).
  reflexivity.
Defined.

Lemma optimal_weights_degenerate_inputs_witness :
  optimal_weights (-1) [0.5; 0.25] (of_rows [[1; 0]; [0; 4]])
  = Throw (ValueError "Number of samples, -1, must be non-negative.").
Proof.
  apply (proj1 (proj2 (@optimal_weights_degenerate_inputs float float64 (-1)
                         [0.5; 0.25] (of_rows [[1; 0]; [0; 4]])))).
  - discriminate.
  - reflexivity.
Defined.

End EdgeWitnesses64.

(** ** Where the claims about the optimisers and the volatility fail *)

Section Unchecked64.
Open Scope float_scope.

Lemma stalled_solver_contract (tol : float) :
  slsqp_contract tol (@stalled_solver float).
Proof. intros p r [= <-] Hs. discriminate Hs. Qed.



(** C8, refuted as stated: on binary64, with weights 0.2, 0.3, 0.5 and
    variances 0.04, 0.04, 0.25 (no covariance), moving the first asset to
    the end changes the last digit of the volatility. *)
Lemma portfolio_vol_permutation_rounding :
  Permutation [1; 2; 0]%nat (seq 0 3) /\
  portfolio_vol [0x1.999999999999ap-3; 0x1.3333333333333p-2; 0.5]
                (of_rows [[0x1.47ae147ae147bp-5; 0; 0];
                          [0; 0x1.47ae147ae147bp-5; 0];
                          [0; 0; 0.25]])
  = Ok 0x1.0a6fd56be99a9p-2 /\
  portfolio_vol
    (permute_vec [1; 2; 0]%nat [0x1.999999999999ap-3; 0x1.3333333333333p-2; 0.5])
    (permute_mat [1; 2; 0]%nat
                 (of_rows [[0x1.47ae147ae147bp-5; 0; 0];
                           [0; 0x1.47ae147ae147bp-5; 0];
                           [0; 0; 0.25]]))
  = Ok 0x1.0a6fd56be99aap-2 /\
  (0x1.0a6fd56be99a9p-2 =? 0x1.0a6fd56be99aap-2) = false.
Proof.
  split.
  - apply Permutation_sym. exact (Permutation_cons_append [1; 2]%nat 0%nat).
  - vm_compute. repeat split.
Qed.

End Unchecked64.

Section UncheckedExact.
Open Scope R_scope.


Lemma pair_feasible (e : R) (p : problem R) (w : list R) :
  solver_problem (msr 0 [e; e] (of_rows [[1; 0]; [0; 4]])) = Some p ->
  minimises p w ->
  exists a b, w = [a; b] /\ 0 <= a <= 1 /\ 0 <= b <= 1 /\ a + b = 1.
Proof.
  intros Hp [Hf _]. cbn [fzero exact] in Hf.
  apply (msr_feasible 0 0 [e; e] _ p w Hp) in Hf.
  now apply exact_weights_ok_pair.
Qed.

(** With both expected returns at [-1] the problem of [msr] has one
    minimiser, the second asset alone. *)
Lemma pair_msr_negative_minimiser (p : problem R) :
  solver_problem (msr 0 [-1; -1] (of_rows [[1; 0]; [0; 4]])) = Some p ->
  minimises p [0; 1] /\ forall w, minimises p w -> w = [0; 1].
Proof.
  intros Hp. split.
  - apply (minimises_msr_pair (-1) p 0 1 Hp). split; [lra |].
    intros a b Ha Hb Hs.
    pose proof (pair_variance_bounds a b Ha Hb Hs) as Hq.
    apply Rmult_le_compat_l; [lra |].
    apply inv_sqrt_antitone; lra.
  - intros w Hw.
    destruct (pair_feasible (-1) p w Hp Hw) as [a [b [-> [Ha [Hb Hs]]]]].
    apply (minimises_msr_pair (-1) p a b Hp) in Hw as [_ Hmin].
    specialize (Hmin 0 1 ltac:(lra) ltac:(lra) ltac:(lra)).
    pose proof (pair_variance_bounds a b Ha Hb Hs) as Hq.
    assert (Hfour : 4 <= a * a + 4 * (b * b)).
    { destruct (Rle_dec 4 (a * a + 4 * (b * b))) as [H | H]; [exact H |].
      pose proof (inv_sqrt_strict (a * a + 4 * (b * b)) (0 * 0 + 4 * (1 * 1))
                    ltac:(lra) ltac:(lra)). lra. }
    assert (Hb1 : b = 1) by (apply Rle_antisym; nra).
    subst b. replace a with 0 by lra. reflexivity.
Qed.

(** With both expected returns at a positive [e] (for [gmv], at 1) the
    problem of [msr] has one minimiser, the portfolio (4/5, 1/5). *)
Lemma pair_msr_positive_minimiser (e : R) (p : problem R) :
  0 < e ->
  solver_problem (msr 0 [e; e] (of_rows [[1; 0]; [0; 4]])) = Some p ->
  minimises p [4 / 5; 1 / 5] /\ forall w, minimises p w -> w = [4 / 5; 1 / 5].
Proof.
  intros He Hp. split.
  - apply (minimises_msr_pair e p (4 / 5) (1 / 5) Hp). split; [lra |].
    intros a b Ha Hb Hs.
    pose proof (pair_variance_bounds a b Ha Hb Hs) as Hq.
    pose proof (inv_sqrt_antitone (4 / 5 * (4 / 5) + 4 * (1 / 5 * (1 / 5)))
                  (a * a + 4 * (b * b)) ltac:(lra) ltac:(lra)) as Hle.
    apply (Rmult_le_compat_l e) in Hle; lra.
  - intros w Hw.
    destruct (pair_feasible e p w Hp Hw) as [a [b [-> [Ha [Hb Hs]]]]].
    apply (minimises_msr_pair e p a b Hp) in Hw as [_ Hmin].
    specialize (Hmin (4 / 5) (1 / 5) ltac:(lra) ltac:(lra) ltac:(lra)).
    pose proof (pair_variance_bounds a b Ha Hb Hs) as Hq.
    assert (Hlow : a * a + 4 * (b * b) <= 4 / 5).
    { destruct (Rle_dec (a * a + 4 * (b * b)) (4 / 5)) as [H | H]; [exact H |].
      pose proof (inv_sqrt_strict (4 / 5 * (4 / 5) + 4 * (1 / 5 * (1 / 5)))
                    (a * a + 4 * (b * b)) ltac:(lra) ltac:(lra)) as Hlt.
      apply (Rmult_lt_compat_l e) in Hlt; lra. }
    assert (Hsq : (b - 1 / 5) * (b - 1 / 5) = 0) by nra.
    apply Rmult_integral in Hsq.
    assert (Hb1 : b = 1 / 5) by (destruct Hsq; lra).
    subst b. replace a with (4 / 5) by lra. reflexivity.
Qed.

Lemma pair_objective_first_asset (e : R) :
  neg_sharpe_ratio [1; 0] 0 [e; e] (of_rows [[1; 0]; [0; 4]]) = Ok (- e).
Proof.
  rewrite (neg_sharpe_ratio_pair e 1 0) by lra.
  replace (1 * 1 + 4 * (0 * 0)) with 1 by ring.
  rewrite sqrt_1. f_equal. field.
Qed.

(** What [pair_oracle] answers to [msr] on equal returns: the exact
    minimiser, on either side of zero. *)
Lemma pair_oracle_answers (e : R) :
  e <> 0 ->
  run pair_oracle (msr 0 [e; e] (of_rows [[1; 0]; [0; 4]]))
  = Ok (if Rlt_dec e 0 then [0; 1] else [4 / 5; 1 / 5]).
Proof.
  intros He.
  cbn [run msr pbind lift py_one_over length Nat.eqb].
  unfold pair_oracle. cbn [objective fone fzero exact].
  rewrite pair_objective_first_asset. cbn [bind x].
  destruct (Rlt_dec e 0) as [Hlt | Hge].
  - destruct (0 <? _)%A eqn:E; [reflexivity |].
    rewrite <- not_true_iff_false, exact_ltb_iff in E. lra.
  - destruct (0 <? _)%A eqn:E; [apply exact_ltb_iff in E; lra |].
    cbn [of_nat fdiv fone exact INR]. do 2 f_equal; [lra | f_equal; lra].
Qed.



End UncheckedExact.
